(** * Transaction delta inference: a shallow embedding of the helpers in
      [src/types/solana.ts] and of [handleFetch] in [src/App.tsx]

    [src/types/solana.ts] holds the data types and the functions that the
    application imports from [utils/blockchain]: [parseSignature],
    [findDeltaSOL], [findDeltaSPL], [inferParties] and [buildExplorerUrl].
    They and the body of [handleFetch] are transcribed as Rocq functions,
    and the properties the specification states about them are proved, or
    refuted, on these functions.

    Conventions of the embedding.
    - A JavaScript [number] that holds an integer is a [JsNumber]: a finite
      integer value, one of the two infinities, or NaN.  The arithmetic of
      the source is IEEE-754 binary64, so every conversion and every
      subtraction rounds to the nearest representable value (ties to even).
      The two zeros are identified: no comparison of the source tells them
      apart.
    - A JavaScript string is a [string]; its characters stand for the code
      units below 256.
    - [x | undefined] is [option x]; [a ?? b] is [default b a];
      truthiness of a string-or-undefined value is [truthy]. *)

From Stdlib Require Import ZArith Ascii String.
From Stdlib Require Import Floats.SpecFloat.
From stdpp Require Import base option list strings gmap pretty.

Local Open Scope Z_scope.

(** ** JavaScript numbers holding integers *)

Inductive JsNumber : Type :=
  | Fin (z : Z)
  | PosInf
  | NegInf
  | NaN.

Global Instance JsNumber_eq_dec : EqDecision JsNumber.
Proof. solve_decision. Defined.

(** Largest magnitude below which every integer is a binary64 value. *)
Definition two53 : Z := 2 ^ 53.

(** Rounding of a non-negative integer to 53 significant bits, nearest,
    ties to even (unbounded exponent). *)
Definition round53 (a : Z) : Z :=
  if a <? two53 then a
  else
    let e := Z.log2 a - 52 in
    let q := Z.shiftr a e in
    let r := Z.land a (Z.ones e) in
    let half := Z.shiftl 1 (e - 1) in
    let q' := if r <? half then q
              else if half <? r then q + 1
              else if Z.even q then q else q + 1 in
    Z.shiftl q' e.

(** The binary64 value nearest to the integer [z]; a rounded magnitude of
    [2^1024] or more overflows to an infinity. *)
Definition to_double (z : Z) : JsNumber :=
  let m := round53 (Z.abs z) in
  if 2 ^ 1024 <=? m then (if z <? 0 then NegInf else PosInf)
  else Fin (Z.sgn z * m).

(** [a - b] on numbers. *)
Definition jsub (a b : JsNumber) : JsNumber :=
  match a, b with
  | NaN, _ | _, NaN => NaN
  | Fin x, Fin y => to_double (x - y)
  | Fin _, PosInf => NegInf
  | Fin _, NegInf => PosInf
  | PosInf, PosInf => NaN
  | PosInf, _ => PosInf
  | NegInf, NegInf => NaN
  | NegInf, _ => NegInf
  end.

(** [a > b] on numbers: false as soon as one side is NaN. *)
Definition jgt (a b : JsNumber) : bool :=
  match a, b with
  | NaN, _ | _, NaN => false
  | Fin x, Fin y => bool_decide (y < x)
  | PosInf, PosInf => false
  | PosInf, _ => true
  | NegInf, _ => false
  | Fin _, NegInf => true
  | Fin _, PosInf => false
  end.

Definition jzero : JsNumber := Fin 0.

(** The same conversion through the Standard Library's specification of
    IEEE-754 arithmetic, at the parameters of binary64 (precision 53,
    maximal exponent 1024); [to_double] is checked against it below. *)
Definition of_spec_float (f : spec_float) : JsNumber :=
  match f with
  | S754_zero _ => Fin 0
  | S754_infinity s => if s then NegInf else PosInf
  | S754_nan => NaN
  | S754_finite s m e =>
      Fin ((if s then -1 else 1)
           * (if e <? 0 then Z.pos m / 2 ^ (- e) else Z.pos m * 2 ^ e))
  end.

Definition binary64_of_Z (z : Z) : JsNumber :=
  of_spec_float (binary_normalize 53 1024 z 0 false).

Definition rounding_samples : list Z :=
  [0; 1; -1; 5000000; 2 ^ 53; 2 ^ 53 + 1; 2 ^ 53 + 2; 2 ^ 53 + 3; - (2 ^ 53 + 1);
   - (2 ^ 53 + 3); 2 ^ 60 + 127; 2 ^ 60 + 128; 2 ^ 60 + 129; 2 ^ 60 + 384;
   2 ^ 62 + 2 ^ 9; 2 ^ 62 + 2 ^ 9 + 1; 2 ^ 62 + 2 ^ 9 + 2 ^ 10; 2 ^ 63 - 1;
   2 ^ 64 - 1; 10 ^ 30; 7 - 10 ^ 30; 2 ^ 1023 + 12345; 2 ^ 1024 - 2 ^ 970 - 1;
   2 ^ 1024 - 2 ^ 970; 2 ^ 1024 - 1; 2 ^ 1024; - (2 ^ 1024)].

(** ** Strings *)

Definition chars (s : string) : list ascii := list_ascii_of_string s.

(** White space and line terminators removed by [String.prototype.trim]
    and skipped by the string-to-number conversion (code units below 256). *)
Definition is_js_space (c : ascii) : bool :=
  match c with
  | "009" | "010" | "011" | "012" | "013" | " " | "160" => true
  | _ => false
  end%char.

Fixpoint trim_start (l : list ascii) : list ascii :=
  match l with
  | c :: l' => if is_js_space c then trim_start l' else l
  | [] => []
  end.

Definition trim_end (l : list ascii) : list ascii :=
  reverse (trim_start (reverse l)).

(** [s.trim()], on the characters of [s]. *)
Definition trim (l : list ascii) : list ascii := trim_end (trim_start l).

(** ** [Number(s)] on decimal integer literals

    The amounts the RPC node sends are unsigned 64-bit integers printed in
    decimal.  The conversion below covers what [Number] does on such text:
    surrounding white space is skipped, the empty text is [0], an optional
    sign and a run of decimal digits denote an integer that is rounded to
    binary64, and [Infinity] is recognised.  Literals with a fraction, an
    exponent or a radix prefix are outside this embedding and are mapped to
    [NaN] like non-numeric text. *)

Definition digit_of (c : ascii) : option Z := Z.of_nat <$> Ascii.is_nat c.

Fixpoint digits_value (acc : Z) (l : list ascii) : option Z :=
  match l with
  | [] => Some acc
  | c :: l' =>
      match digit_of c with
      | Some d => digits_value (10 * acc + d) l'
      | None => None
      end
  end.

(** The integer denoted by an optionally signed, non-empty run of digits. *)
Definition decimal_integer (l : list ascii) : option Z :=
  match l with
  | [] => None
  | "+"%char :: ((_ :: _) as ds) => digits_value 0 ds
  | "-"%char :: ((_ :: _) as ds) => Z.opp <$> digits_value 0 ds
  | _ => digits_value 0 l
  end.

Definition Number (s : string) : JsNumber :=
  let t := trim (chars s) in
  match t with
  | [] => jzero
  | _ =>
      match decimal_integer t with
      | Some z => to_double z
      | None =>
          if bool_decide (t = chars "Infinity" \/ t = chars "+Infinity") then PosInf
          else if bool_decide (t = chars "-Infinity") then NegInf
          else NaN
      end
  end.

(** Truthiness of a [string | undefined] value. *)
Definition truthy (s : option string) : bool :=
  match s with
  | Some s => negb (bool_decide (s = ""))
  | None => false
  end.

(** [a || b] on [string | undefined] values. *)
Definition or_else (a b : option string) : option string :=
  if truthy a then a else b.

(** ** Data model ([src/types/solana.ts]) *)

Record UiTokenAmount : Type := {
  amount : string;
  decimals : option Z
}.

Record TokenBalance : Type := {
  accountIndex : Z;
  mint : string;
  owner : option string;
  uiTokenAmount : UiTokenAmount
}.

Record AccountMetaKey : Type := {
  pubkey : string;
  signer : bool;
  writable : bool
}.

(** [parsed?: any]: the part of it the program reads is [parsed.info] and
    the three address fields of that object. *)
Record ParsedInfo : Type := {
  source : option string;
  authority : option string;
  info_owner : option string
}.

Record Parsed : Type := { info : option ParsedInfo }.

Record ParsedInstruction : Type := {
  program : string;
  programId : string;
  parsed : option Parsed
}.

(** [instructions] is [None] for a message that lacks the array at run
    time: reading it then throws, which [handleFetch] catches. *)
Record TransactionMessage : Type := {
  accountKeys : list AccountMetaKey;
  instructions : option (list ParsedInstruction)
}.

Record GetTransactionMeta : Type := {
  fee : JsNumber;
  preBalances : list JsNumber;
  postBalances : list JsNumber;
  preTokenBalances : option (list TokenBalance);
  postTokenBalances : option (list TokenBalance)
}.

Record GetTransactionResponse : Type := {
  slot : JsNumber;
  blockTime : option JsNumber;
  meta : option GetTransactionMeta;
  message : TransactionMessage
}.

Global Instance UiTokenAmount_eq_dec : EqDecision UiTokenAmount.
Proof. solve_decision. Defined.
Global Instance TokenBalance_eq_dec : EqDecision TokenBalance.
Proof. solve_decision. Defined.

(** [message.accountKeys[i]?.pubkey] for a numeric index [i]. *)
Definition pubkey_at (message : TransactionMessage) (i : Z) : option string :=
  if bool_decide (0 <= i) then pubkey <$> accountKeys message !! Z.to_nat i
  else None.

(** ** [findDeltaSOL] *)

Record SolDelta : Type := { index : Z; deltaLamports : JsNumber }.

(** The [for] loop of [findDeltaSOL], from index [i] on, for [n] more
    iterations, with the running [bestIdx] and [bestDelta]. *)
Fixpoint findDeltaSOL_loop (meta : GetTransactionMeta) (message : TransactionMessage)
    (recipient : option string) (n i : nat) (bestIdx : Z) (bestDelta : JsNumber)
    : SolDelta :=
  match n with
  | O =>
      if truthy recipient then {| index := -1; deltaLamports := jzero |}
      else {| index := bestIdx; deltaLamports := bestDelta |}
  | S n' =>
      let delta := jsub (default jzero (postBalances meta !! i))
                        (default jzero (preBalances meta !! i)) in
      if truthy recipient then
        if bool_decide (pubkey <$> accountKeys message !! i = recipient)
        then {| index := Z.of_nat i; deltaLamports := delta |}
        else findDeltaSOL_loop meta message recipient n' (S i) bestIdx bestDelta
      else if jgt delta bestDelta
      then findDeltaSOL_loop meta message recipient n' (S i) (Z.of_nat i) delta
      else findDeltaSOL_loop meta message recipient n' (S i) bestIdx bestDelta
  end.

Definition findDeltaSOL (meta : GetTransactionMeta) (message : TransactionMessage)
    (recipient : option string) : SolDelta :=
  findDeltaSOL_loop meta message recipient (length (preBalances meta)) 0%nat (-1) jzero.

(** ** [findDeltaSPL] *)

Record SplDelta : Type := {
  spl_accountIndex : Z;
  spl_mint : string;
  spl_decimals : Z;
  delta : JsNumber;
  spl_owner : option string
}.

(** The template literal [`${b.accountIndex}:${b.mint}`]; an account index
    is an integer and prints in plain decimal. *)
Definition key (b : TokenBalance) : string :=
  pretty (accountIndex b) +:+ ":" +:+ mint b.

(** [new Map(pre.map((b) => [key(b), b]))]: entries are set in array
    order, so a later entry replaces an earlier one with the same key. *)
Definition mkPreMap (pre : list TokenBalance) : gmap string TokenBalance :=
  foldl (fun m b => <[key b := b]> m) ∅ pre.

(** [amountPost - amountPre] for the post entry [pb]. *)
Definition entryDelta (preMap : gmap string TokenBalance) (pb : TokenBalance) : JsNumber :=
  let p := preMap !! key pb in
  let amountPost := Number (amount (uiTokenAmount pb)) in
  let amountPre :=
    match p with
    | Some p => Number (amount (uiTokenAmount p))
    | None => jzero
    end in
  jsub amountPost amountPre.

(** The record built from the post entry [pb] in both branches of the loop. *)
Definition entryRecord (preMap : gmap string TokenBalance) (pb : TokenBalance) : SplDelta :=
  {| spl_accountIndex := accountIndex pb;
     spl_mint := mint pb;
     spl_decimals := default 0 (decimals (uiTokenAmount pb));
     delta := entryDelta preMap pb;
     spl_owner := owner pb |}.

(** [owner === recipient || pubkey === recipient], owner first. *)
Definition matches_recipient (message : TransactionMessage) (recipient : option string)
    (pb : TokenBalance) : bool :=
  bool_decide (owner pb = recipient)
  || bool_decide (pubkey_at message (accountIndex pb) = recipient).

(** The [for (const pb of post)] loop with the running [best]. *)
Fixpoint findDeltaSPL_loop (preMap : gmap string TokenBalance)
    (message : TransactionMessage) (recipient : option string)
    (post : list TokenBalance) (best : option SplDelta) : option SplDelta :=
  match post with
  | [] => best
  | pb :: rest =>
      if truthy recipient then
        if matches_recipient message recipient pb
        then Some (entryRecord preMap pb)
        else findDeltaSPL_loop preMap message recipient rest best
      else if jgt (entryDelta preMap pb) (default jzero (delta <$> best))
      then findDeltaSPL_loop preMap message recipient rest (Some (entryRecord preMap pb))
      else findDeltaSPL_loop preMap message recipient rest best
  end.

Definition findDeltaSPL (meta : GetTransactionMeta) (message : TransactionMessage)
    (recipient : option string) : option SplDelta :=
  let pre := default [] (preTokenBalances meta) in
  let post := default [] (postTokenBalances meta) in
  findDeltaSPL_loop (mkPreMap pre) message recipient post None.

(** ** [inferParties] *)

Record Parties : Type := {
  sender : option string;
  recipient : option string
}.

(** [keys.find((k, i) => i > 0 && k.writable)], scanning from index [i]. *)
Fixpoint find_writable_after_first (keys : list AccountMetaKey) (i : nat)
    : option AccountMetaKey :=
  match keys with
  | [] => None
  | k :: rest =>
      if bool_decide (0 < i)%nat && writable k then Some k
      else find_writable_after_first rest (S i)
  end.

Definition inferParties (message : TransactionMessage) : Parties :=
  let keys := accountKeys message in
  let feePayer := pubkey <$> keys !! 0%nat in
  let possibleSender := feePayer in
  let possibleRecipient := pubkey <$> find_writable_after_first keys 0 in
  {| sender := possibleSender; recipient := possibleRecipient |}.

(** ** [parseSignature]

    The regular expression
    [(?:solscan\.io\/tx\/|explorer\.solana\.com\/tx\/|solanafm\.com\/tx\/|^)([1-9A-HJ-NP-Za-km-z]{87,88})]
    is run the way [String.prototype.match] runs it: start positions are
    tried from left to right, at each position the four alternatives in
    order, and the capture group takes as many characters of its class as
    it can, up to 88. *)

(** The character class [[1-9A-HJ-NP-Za-km-z]]. *)
Definition is_base58 (c : ascii) : bool :=
  let n := nat_of_ascii c in
  ((49 <=? n) && (n <=? 57) || (65 <=? n) && (n <=? 72)
   || (74 <=? n) && (n <=? 78) || (80 <=? n) && (n <=? 90)
   || (97 <=? n) && (n <=? 107) || (109 <=? n) && (n <=? 122))%nat.

(** The longest run of class characters at the head of [l], at most [n] long. *)
Fixpoint class_run (n : nat) (l : list ascii) : list ascii :=
  match n, l with
  | S n', c :: l' => if is_base58 c then c :: class_run n' l' else []
  | _, _ => []
  end.

(** The capture group [(...){87,88}] at the head of [l]. *)
Definition match_group (l : list ascii) : option (list ascii) :=
  let run := class_run 88 l in
  if bool_decide (87 <= length run)%nat then Some run else None.

(** The three literal alternatives, in the order of the expression. *)
Definition url_shapes : list (list ascii) :=
  [chars "solscan.io/tx/"; chars "explorer.solana.com/tx/"; chars "solanafm.com/tx/"].

(** [l] without its prefix [p], when [p] is a prefix of [l]. *)
Fixpoint strip_prefix (p l : list ascii) : option (list ascii) :=
  match p, l with
  | [], _ => Some l
  | a :: p', b :: l' => if bool_decide (a = b) then strip_prefix p' l' else None
  | _ :: _, [] => None
  end.

Fixpoint match_shapes (shapes : list (list ascii)) (l : list ascii)
    : option (list ascii) :=
  match shapes with
  | [] => None
  | p :: shapes' =>
      match strip_prefix p l ≫= match_group with
      | Some g => Some g
      | None => match_shapes shapes' l
      end
  end.

(** One attempt of the whole expression at the head of [l]; [at_start]
    tells whether that position is the start of the input, where [^] holds. *)
Definition match_at (at_start : bool) (l : list ascii) : option (list ascii) :=
  match match_shapes url_shapes l with
  | Some g => Some g
  | None => if at_start then match_group l else None
  end.

Fixpoint regex_search (at_start : bool) (l : list ascii) : option (list ascii) :=
  match match_at at_start l with
  | Some g => Some g
  | None =>
      match l with
      | [] => None
      | _ :: l' => regex_search false l'
      end
  end.

Definition parseSignature (input : string) : option string :=
  let trimmed := trim (chars input) in
  match trimmed with
  | [] => None
  | _ => string_of_list_ascii <$> regex_search true trimmed
  end.

Definition buildExplorerUrl (signature : string) : string :=
  "https://solscan.io/tx/" +:+ signature.

(** ** [handleFetch] ([src/App.tsx])

    The component state the handler writes, the report it assembles and the
    calls it makes to the RPC node.  Divisions that produce display amounts
    and the date formatting are kept symbolic. *)

(** The texts of the active locale that the handler uses ([LOCALES[lang]]). *)
Record Locale : Type := {
  validTxLink : string;
  noTxOrRPC : string;
  noMetadata : string;
  rpcError : string
}.

Inductive Divisor : Type :=
  | Pow10 (decimals : Z)       (* [Math.pow(10, decimals)] *)
  | LAMPORTS_PER_SOL.

(** [numerator / divisor], not evaluated. *)
Record Quotient : Type := { numerator : JsNumber; divisor : Divisor }.

Inductive Report : Type :=
  | ReportSpl (mint : string) (amountRaw : JsNumber) (decimals : Z)
      (amountUi : Quotient) (recipient : option string)
  | ReportSol (amountLamports : JsNumber) (amountSOL : Quotient)
      (recipient : option string)
  | ReportNone (sender recipient : option string).

Definition report_recipient (r : Report) : option string :=
  match r with
  | ReportSpl _ _ _ _ rc => rc
  | ReportSol _ _ rc => rc
  | ReportNone _ rc => rc
  end.

Inductive Asset : Type :=
  | AssetSPL (mint : string) (amount : Quotient) (decimals : Z)
  | AssetSOL (amount : Quotient)
  | AssetUnknown.

Inductive TimeText : Type :=
  | TimeDash                      (* ["-"] *)
  | TimePLN (ts : JsNumber).      (* [toPLNDate(ts)] *)

Record Analysis : Type := {
  an_signature : string;
  an_explorerUrl : string;
  an_slot : JsNumber;
  an_time : TimeText;
  an_feeLamports : JsNumber;
  an_sender : option string;
  an_recipient : option string;
  an_asset : Asset
}.

(** Truthiness of a number. *)
Definition truthy_num (n : JsNumber) : bool :=
  match n with
  | Fin z => negb (bool_decide (z = 0))
  | NaN => false
  | _ => true
  end.

(** The [if / else if / else] that replaces the initial [{ type: "unknown" }];
    [rcpt] is the [recipient] field of the form. *)
Definition buildReport (spl : option SplDelta) (sol : SolDelta)
    (message : TransactionMessage) (rcpt : string) : Report :=
  let native_or_none :=
    if jgt (deltaLamports sol) jzero then
      ReportSol (deltaLamports sol)
        {| numerator := deltaLamports sol; divisor := LAMPORTS_PER_SOL |}
        (or_else (Some rcpt) (pubkey_at message (index sol)))
    else
      let parties := inferParties message in
      ReportNone (sender parties) (recipient parties) in
  match spl with
  | Some spl' =>
      if jgt (delta spl') jzero then
        ReportSpl (spl_mint spl') (delta spl') (spl_decimals spl')
          {| numerator := delta spl'; divisor := Pow10 (spl_decimals spl') |}
          (or_else (or_else (Some rcpt) (spl_owner spl'))
                   (pubkey_at message (spl_accountIndex spl')))
      else native_or_none
  | None => native_or_none
  end.

(** [ix.parsed?.info] *)
Definition info_of (ix : ParsedInstruction) : option ParsedInfo :=
  match parsed ix with
  | Some p => info p
  | None => None
  end.

(** [info?.field] *)
Definition field_of (i : option ParsedInfo) (field : ParsedInfo -> option string)
    : option string :=
  match i with
  | Some i' => field i'
  | None => None
  end.

(** The [try { ... } catch { ... }] that chooses the sender. *)
Definition refineSender (message : TransactionMessage) : option string :=
  match instructions message with
  | None => sender (inferParties message)
  | Some ixs =>
      let parsedIx := List.find (fun ix => bool_decide (is_Some (info_of ix))) ixs in
      let info' := match parsedIx with Some ix => info_of ix | None => None end in
      or_else (or_else (or_else (field_of info' source) (field_of info' authority))
                       (field_of info' info_owner))
              (sender (inferParties message))
  end.

Definition assetOf (report : Report) : Asset :=
  match report with
  | ReportSpl mint _ decimals amountUi _ => AssetSPL mint amountUi decimals
  | ReportSol _ amountSOL _ => AssetSOL amountSOL
  | ReportNone _ _ => AssetUnknown
  end.

(** The analysis of a fetched transaction that has metadata: the object
    passed to [setAnalysis], which [handleFetch] builds when [toPLNDate]
    returns. *)
Definition analyse (sig : string) (res : GetTransactionResponse)
    (meta : GetTransactionMeta) (rcpt : string) : Analysis :=
  let message := message res in
  let rcpt_arg := if bool_decide (rcpt = "") then None else Some rcpt in
  let spl := findDeltaSPL meta message rcpt_arg in
  let sol := findDeltaSOL meta message rcpt_arg in
  let report := buildReport spl sol message rcpt in
  let sender := refineSender message in
  {| an_signature := sig;
     an_explorerUrl := buildExplorerUrl sig;
     an_slot := slot res;
     an_time := match blockTime res with
                | Some ts => if truthy_num ts then TimePLN ts else TimeDash
                | None => TimeDash
                end;
     an_feeLamports := fee meta;
     an_sender := sender;
     an_recipient := report_recipient report;
     an_asset := assetOf report |}.

(** [a * b] on numbers. *)
Definition jsign (a : JsNumber) : Z :=
  match a with
  | Fin z => Z.sgn z
  | PosInf => 1
  | NegInf => -1
  | NaN => 0
  end.

Definition jmul (a b : JsNumber) : JsNumber :=
  match a, b with
  | NaN, _ | _, NaN => NaN
  | Fin x, Fin y => to_double (x * y)
  | _, _ =>
      let s := jsign a * jsign b in
      if s =? 0 then NaN else if 0 <? s then PosInf else NegInf
  end.

(** [new Date(tv)] is a valid date when the time value [tv] is finite and
    at most 8.64e15 milliseconds away from the epoch. *)
Definition valid_time_value (tv : JsNumber) : bool :=
  match tv with
  | Fin z => bool_decide (Z.abs z <= 8640000000000000)
  | _ => false
  end.

(** [toPLNDate(ts)] ([src/utils/date]).  [None] stands for the [RangeError]
    that leaves the function: on an invalid date the formatter throws, and
    so does [toISOString] in the [catch] block.  On a valid date the text
    is the formatter's or, when the formatter cannot be built,
    [toISOString]'s; it is kept symbolic as [TimePLN ts]. *)
Definition toPLNDate (ts : option JsNumber) : option TimeText :=
  match ts with
  | None => Some TimeDash
  | Some n =>
      if truthy_num n then
        if valid_time_value (jmul n (Fin 1000)) then Some (TimePLN n) else None
      else Some TimeDash
  end.

(** [res.blockTime ? toPLNDate(res.blockTime) : "-"], the [time] field of
    the analysis; [None] when [toPLNDate] throws. *)
Definition time_text (res : GetTransactionResponse) : option TimeText :=
  match blockTime res with
  | Some ts => if truthy_num ts then toPLNDate (Some ts) else Some TimeDash
  | None => Some TimeDash
  end.

(** The message of the [RangeError] of an invalid date, as V8 words it;
    the wording differs between engines. *)
Definition invalid_time_message : string := "Invalid time value".

(** What [rpcGetTransaction] does for a signature: it throws an error with
    some message, or returns a response or [null]. *)
Inductive RpcOutcome : Type :=
  | RpcThrows (msg : string)
  | RpcReturns (res : option GetTransactionResponse).

Record AppState : Type := {
  st_loading : bool;
  st_error : option string;
  st_tx : option GetTransactionResponse;
  st_analysis : option Analysis;
  (** signatures sent to the RPC node so far, latest first *)
  st_calls : list string
}.

(** [setError(error.message || t.rpcError)] *)
Definition caught (t : Locale) (msg : string) : string :=
  if bool_decide (msg = "") then rpcError t else msg.

Definition handleFetch (t : Locale) (rpc : string -> RpcOutcome)
    (input rcpt : string) (st : AppState) : AppState :=
  let signature := default "" (parseSignature input) in
  let sig := signature in
  if bool_decide (sig = "") then
    {| st_loading := st_loading st; st_error := Some (validTxLink t);
       st_tx := None; st_analysis := None; st_calls := st_calls st |}
  else
    let failed msg :=
      {| st_loading := false; st_error := Some (caught t msg);
         st_tx := None; st_analysis := None; st_calls := sig :: st_calls st |} in
    match rpc sig with
    | RpcThrows msg => failed msg
    | RpcReturns None => failed (noTxOrRPC t)
    | RpcReturns (Some res) =>
        match meta res with
        | None => failed (noMetadata t)
        | Some meta =>
            match time_text res with
            | Some _ =>
                {| st_loading := false; st_error := None;
                   st_tx := Some res;
                   st_analysis := Some (analyse sig res meta rcpt);
                   st_calls := sig :: st_calls st |}
            | None =>
                (* [setTx(res)] has run; the argument of [setAnalysis] throws *)
                {| st_loading := false;
                   st_error := Some (caught t invalid_time_message);
                   st_tx := Some res;
                   st_analysis := None;
                   st_calls := sig :: st_calls st |}
            end
        end
    end.

(** ** Specification-level notions used in the statements *)

(** What the scan without a recipient has established after the entries
    [seen]: nothing positive so far, or [best] is the record of the first
    entry of [seen] that carries the largest delta, which is positive. *)
Definition best_of (preMap : gmap string TokenBalance)
    (seen : list TokenBalance) (best : option SplDelta) : Prop :=
  match best with
  | None => forall pb, pb ∈ seen -> jgt (entryDelta preMap pb) jzero = false
  | Some r =>
      jgt (delta r) jzero = true /\
      exists (i : nat) (pb : TokenBalance),
        seen !! i = Some pb /\ r = entryRecord preMap pb /\
        (forall pb', pb' ∈ seen -> jgt (entryDelta preMap pb') (delta r) = false) /\
        (forall (j : nat) pb', (j < i)%nat -> seen !! j = Some pb' ->
           entryDelta preMap pb' <> delta r)
  end.

(** The delta the loop of [findDeltaSOL] computes at index [i]. *)
Definition delta_at (meta : GetTransactionMeta) (i : nat) : JsNumber :=
  jsub (default jzero (postBalances meta !! i)) (default jzero (preBalances meta !! i)).

(** The sender as the specification words it: taken from the first
    instruction that carries a [source], [authority] or [owner] address,
    else the guess of [inferParties]. *)
Definition carries_sender_field (ix : ParsedInstruction) : bool :=
  truthy (field_of (info_of ix) source)
  || truthy (field_of (info_of ix) authority)
  || truthy (field_of (info_of ix) info_owner).

Definition refineSender_spec (message : TransactionMessage) : option string :=
  match instructions message with
  | None => sender (inferParties message)
  | Some ixs =>
      match List.find carries_sender_field ixs with
      | Some ix =>
          or_else (or_else (field_of (info_of ix) source) (field_of (info_of ix) authority))
                  (field_of (info_of ix) info_owner)
      | None => sender (inferParties message)
      end
  end.

(** A signature in the sense of the expression: 87 or 88 characters of the
    base58 alphabet. *)
Definition signature_text (sig : list ascii) : Prop :=
  Forall (fun c => is_base58 c = true) sig /\ (87 <= length sig <= 88)%nat.

(** [sig] is recognised in the trimmed input [t]: it stands at the very
    start of [t], or right after one of the explorer path shapes. *)
Definition recognised (t sig : list ascii) : Prop :=
  exists before shape after,
    t = before ++ shape ++ sig ++ after /\
    (shape ∈ url_shapes \/ (shape = [] /\ before = [])) /\
    signature_text sig.

(** The text [s] denotes the integer [z]: a run of decimal digits with an
    optional sign, possibly surrounded by white space. *)
Definition denotes (s : string) (z : Z) : Prop :=
  decimal_integer (trim (chars s)) = Some z.

(** The pre entry for the account and mint of the post entry [pb]: the
    last entry of [pre] with that account index and that mint. *)
Definition same_account_mint (pb p : TokenBalance) : Prop :=
  accountIndex p = accountIndex pb /\ mint p = mint pb.

Global Instance same_account_mint_dec pb p : Decision (same_account_mint pb p).
Proof. unfold same_account_mint. apply _. Defined.

Definition pre_entry (pre : list TokenBalance) (pb : TokenBalance) : option TokenBalance :=
  last (filter (same_account_mint pb) pre).

Fixpoint has_colon (s : string) : bool :=
  match s with
  | EmptyString => false
  | String c s' => bool_decide (c = ":"%char) || has_colon s'
  end.

(** ** [short]

    [s.slice(start, end)] on the characters of [s], for integer arguments;
    [end_] is [None] when the call gives one argument. *)
Definition js_slice (l : list ascii) (start : Z) (end_ : option Z) : list ascii :=
  let len := Z.of_nat (length l) in
  let from := if start <? 0 then Z.max (len + start) 0 else Z.min start len in
  let to :=
    match end_ with
    | None => len
    | Some e => if e <? 0 then Z.max (len + e) 0 else Z.min e len
    end in
  let span := Z.max (to - from) 0 in
  take (Z.to_nat span) (drop (Z.to_nat from) l).

(** [short(addr, len = 4)].  The separator of the template literal is the
    horizontal ellipsis, a code unit above 255: it is the parameter
    [ellipsis], so that what is proved holds whatever stands for it. *)
Definition short (ellipsis : list ascii) (addr : option string) (len : option Z)
    : list ascii :=
  let len := default 4 len in
  if truthy addr then
    let a := chars (default "" addr) in
    js_slice a 0 (Some (4 + len)) ++ ellipsis ++ js_slice a (- len) None
  else chars "-".

(** What the scan of [findDeltaSOL] without a recipient has established
    after the indices below [n]: no positive delta so far, or the running
    best is the first index that carries the largest delta, which is
    positive. *)
Definition sol_best_of (meta : GetTransactionMeta) (n : nat)
    (bestIdx : Z) (bestDelta : JsNumber) : Prop :=
  (bestIdx = -1 /\ bestDelta = jzero /\
   forall j : nat, (j < n)%nat -> jgt (delta_at meta j) jzero = false)
  \/
  (exists k : nat,
     bestIdx = Z.of_nat k /\ (k < n)%nat /\ bestDelta = delta_at meta k /\
     jgt bestDelta jzero = true /\
     (forall j : nat, (j < n)%nat -> jgt (delta_at meta j) bestDelta = false) /\
     (forall j : nat, (j < k)%nat -> delta_at meta j <> bestDelta)).

(** ** Sample transactions used to exercise the statements *)

Definition account (a : string) (s w : bool) : AccountMetaKey :=
  {| pubkey := a; signer := s; writable := w |}.

Definition token (i : Z) (m : string) (o : option string) (a : string) : TokenBalance :=
  {| accountIndex := i; mint := m; owner := o;
     uiTokenAmount := {| amount := a; decimals := Some 6 |} |}.

Definition sample_message : TransactionMessage :=
  {| accountKeys := [account "A" true true; account "B" false true; account "C" false true];
     instructions := Some [] |}.

(** Account 1 gains 100 lamports; token account 2 of owner C drops from 500
    to 100 units of mint M, token account 1 of owner B gains 7. *)
Definition sample_meta : GetTransactionMeta :=
  {| fee := Fin 5000;
     preBalances := [Fin 1000; Fin 500; Fin 0];
     postBalances := [Fin 900; Fin 600; Fin 0];
     preTokenBalances := Some [token 2 "M" (Some "C") "500"];
     postTokenBalances :=
       Some [token 1 "M" (Some "B") "7"; token 2 "M" (Some "C") "100";
             token 2 "N" (Some "C") "9"] |}.

(** Token entries are present and none of them changes. *)
Definition still_meta : GetTransactionMeta :=
  {| fee := Fin 5000;
     preBalances := [Fin 1000; Fin 500; Fin 0];
     postBalances := [Fin 1000; Fin 500; Fin 0];
     preTokenBalances := Some [token 2 "M" (Some "C") "500"];
     postTokenBalances := Some [token 2 "M" (Some "C") "500"] |}.

(** A transfer instruction that names [src] as its source. *)
Definition transfer_from (src : string) : ParsedInstruction :=
  {| program := "spl-token"; programId := "TokenkegQfeZyiNwAJbNbGKPFXCWuBvf9Ss623VQ5DA";
     parsed := Some {| info := Some {| source := Some src; authority := None;
                                       info_owner := None |} |} |}.

(** A compute-budget instruction: parsed, with an [info] object that has
    none of the three address fields. *)
Definition set_compute_unit_limit : ParsedInstruction :=
  {| program := "compute-budget"; programId := "ComputeBudget111111111111111111111111111111";
     parsed := Some {| info := Some {| source := None; authority := None;
                                       info_owner := None |} |} |}.

Definition budget_then_transfer : TransactionMessage :=
  {| accountKeys := [account "A" true true; account "B" false true];
     instructions := Some [set_compute_unit_limit; transfer_from "S"] |}.

Definition sample_response : GetTransactionResponse :=
  {| slot := Fin 250000000; blockTime := Some (Fin 1700000000);
     meta := Some sample_meta; message := sample_message |}.

(** 84, 87 and 88 characters of the base58 alphabet. *)
Definition text84 : string :=
  "5VERv8NMvzbJMEkV8xnrLkEaWRtSz9CosKDYjCJjBRnbJLgp8uirBgmQpjKhoR4tjF3ZpRzrFmBV6UjKdiSZ".
Definition text87 : string :=
  "5VERv8NMvzbJMEkV8xnrLkEaWRtSz9CosKDYjCJjBRnbJLgp8uirBgmQpjKhoR4tjF3ZpRzrFmBV6UjKdiSZkQU".
Definition text88 : string :=
  "5VERv8NMvzbJMEkV8xnrLkEaWRtSz9CosKDYjCJjBRnbJLgp8uirBgmQpjKhoR4tjF3ZpRzrFmBV6UjKdiSZkQUW".

Definition sample_locale : Locale :=
  {| validTxLink := "Enter a valid transaction link or signature";
     noTxOrRPC := "Transaction not found or RPC unavailable";
     noMetadata := "No transaction metadata";
     rpcError := "RPC request failed" |}.

Definition idle : AppState :=
  {| st_loading := false; st_error := None; st_tx := None; st_analysis := None;
     st_calls := [] |}.

(** A post entry of [2^53 + 1] units on a token account without pre entry,
    and a pre/post pair of [2^53 + 1] and [2^53 + 2] units. *)
Definition large_post : TokenBalance := token 2 "M" (Some "C") "9007199254740993".
Definition large_pre : TokenBalance := token 1 "M" (Some "B") "9007199254740993".
Definition large_next : TokenBalance := token 1 "M" (Some "B") "9007199254740994".

Definition large_meta : GetTransactionMeta :=
  {| fee := Fin 5000;
     preBalances := [Fin 1000; Fin 500; Fin 0];
     postBalances := [Fin 1000; Fin 500; Fin 0];
     preTokenBalances := Some [];
     postTokenBalances := Some [large_post] |}.

(** Account 1 gains 100 lamports and no token balance is involved. *)
Definition still_native_meta : GetTransactionMeta :=
  {| fee := Fin 5000;
     preBalances := [Fin 1000; Fin 500; Fin 0];
     postBalances := [Fin 900; Fin 600; Fin 0];
     preTokenBalances := None;
     postTokenBalances := None |}.

(** A response whose block time is one second past the last valid date. *)
Definition far_future_response : GetTransactionResponse :=
  {| slot := Fin 250000000; blockTime := Some (Fin 8640000000001);
     meta := Some sample_meta; message := sample_message |}.

(** * Properties *)

(** ** Numbers *)

Lemma round53_small a : 0 <= a <= two53 -> round53 a = a.
Proof.
  intros [H0 H1]. destruct (decide (a = two53)) as [->|Hne].
  - vm_compute. reflexivity.
  - unfold round53. destruct (Z.ltb_spec a two53); [reflexivity | lia].
Qed.

(** Integers of magnitude at most [2^53] convert without rounding. *)
Lemma to_double_exact z : Z.abs z <= two53 -> to_double z = Fin z.
Proof.
  intros Hz. unfold to_double.
  rewrite round53_small by lia.
  assert (Hlt : two53 < 2 ^ 1024) by (vm_compute; reflexivity).
  destruct (Z.leb_spec (2 ^ 1024) (Z.abs z)); [lia|].
  f_equal. destruct z; simpl; lia.
Qed.

(** [to_double] agrees with the IEEE-754 specification on integers around
    the rounding and overflow thresholds. *)
Lemma to_double_matches_binary64 :
  Forall (fun z => to_double z = binary64_of_Z z) rounding_samples.
Proof.
  apply Forall_forall. intros z Hz. apply list_elem_of_In in Hz.
  unfold rounding_samples in Hz. simpl in Hz.
  repeat (destruct Hz as [<- | Hz]; [vm_compute; reflexivity|]). destruct Hz.
Qed.

Lemma jgt_irrefl a : jgt a a = false.
Proof. destruct a; simpl; try reflexivity. apply bool_decide_eq_false. lia. Qed.

(** [c] is not above [b] and [b] is below [a]: [c] is not above [a]. *)
Lemma jgt_not_above a b c :
  jgt a b = true -> jgt c b = false -> jgt c a = false.
Proof.
  destruct a, b, c; simpl; try reflexivity; try discriminate.
  intros H1%bool_decide_eq_true H2%bool_decide_eq_false.
  apply bool_decide_eq_false. lia.
Qed.

Lemma jgt_neq a b c : jgt a b = true -> jgt c b = false -> c <> a.
Proof. intros H1 H2 ->. congruence. Qed.

Lemma truthy_Some r : truthy (Some r) = true <-> r <> "".
Proof.
  simpl. destruct (decide (r = "")) as [->|Hne].
  - split; [discriminate | congruence].
  - rewrite bool_decide_eq_false_2 by assumption. simpl. split; auto.
Qed.

(** ** The token path: [findDeltaSPL] *)

Section TokenLoop.
Variable preMap : gmap string TokenBalance.
Variable message : TransactionMessage.

(** With a recipient the running [best] is never written. *)
Lemma findDeltaSPL_loop_no_match rcpt post best :
  truthy rcpt = true ->
  (forall pb, pb ∈ post -> matches_recipient message rcpt pb = false) ->
  findDeltaSPL_loop preMap message rcpt post best = best.
Proof.
  intros Ht. induction post as [|pb rest IH]; intros Hno; simpl; [reflexivity|].
  rewrite Ht, (Hno pb) by (constructor). apply IH.
  intros x Hx. apply Hno. now constructor.
Qed.

Lemma findDeltaSPL_loop_first_match rcpt before pb after best :
  truthy rcpt = true ->
  (forall x, x ∈ before -> matches_recipient message rcpt x = false) ->
  matches_recipient message rcpt pb = true ->
  findDeltaSPL_loop preMap message rcpt (before ++ pb :: after) best
  = Some (entryRecord preMap pb).
Proof.
  intros Ht. induction before as [|x before IH]; intros Hno Hpb; simpl.
  - now rewrite Ht, Hpb.
  - rewrite Ht, (Hno x) by (constructor). apply IH; [|assumption].
    intros y Hy. apply Hno. now constructor.
Qed.

Lemma best_of_keep seen best pb :
  best_of preMap seen best ->
  jgt (entryDelta preMap pb) (default jzero (delta <$> best)) = false ->
  best_of preMap (seen ++ [pb]) best.
Proof.
  destruct best as [r|]; simpl.
  - intros (Hpos & i & x & Hi & -> & Hmax & Hfirst) Hle.
    split; [assumption|]. exists i, x. split; [|split; [reflexivity|split]].
    + apply lookup_app_l_Some. assumption.
    + intros pb' [Hin | ->%list_elem_of_singleton]%elem_of_app; auto.
    + intros j pb' Hj Hlk. apply (Hfirst j); [assumption|].
      rewrite lookup_app_l in Hlk; [assumption|].
      apply lookup_lt_Some in Hi. lia.
  - intros Hnone Hle pb' [Hin | ->%list_elem_of_singleton]%elem_of_app; auto.
Qed.

Lemma best_of_replace seen best pb :
  best_of preMap seen best ->
  jgt (entryDelta preMap pb) (default jzero (delta <$> best)) = true ->
  best_of preMap (seen ++ [pb]) (Some (entryRecord preMap pb)).
Proof.
  intros Hinv Hgt.
  assert (Hbelow : forall pb', pb' ∈ seen ->
            jgt (entryDelta preMap pb') (default jzero (delta <$> best)) = false).
  { destruct best as [r|]; simpl in *; [|assumption].
    destruct Hinv as (_ & _ & _ & _ & _ & Hmax & _). assumption. }
  assert (Hpos : jgt (entryDelta preMap pb) jzero = true).
  { destruct best as [r|]; simpl in *; [|assumption].
    destruct Hinv as (Hr & _).
    destruct (jgt (entryDelta preMap pb) jzero) eqn:E; [reflexivity|].
    rewrite (jgt_not_above _ _ _ Hr E) in Hgt. discriminate. }
  split; [assumption|]. exists (length seen), pb. simpl.
  split; [|split; [reflexivity|split]].
  - rewrite lookup_app_r by lia. now rewrite Nat.sub_diag.
  - intros pb' [Hin | ->%list_elem_of_singleton]%elem_of_app.
    + apply (jgt_not_above _ (default jzero (delta <$> best)));
        [exact Hgt | now apply Hbelow].
    + apply jgt_irrefl.
  - intros j pb' Hj Hlk. rewrite lookup_app_l in Hlk by assumption.
    apply (jgt_neq _ (default jzero (delta <$> best))); [exact Hgt|].
    apply Hbelow. eapply list_elem_of_lookup_2; eauto.
Qed.

Lemma findDeltaSPL_loop_best rcpt todo : forall seen best,
  truthy rcpt = false ->
  best_of preMap seen best ->
  best_of preMap (seen ++ todo) (findDeltaSPL_loop preMap message rcpt todo best).
Proof.
  induction todo as [|pb rest IH]; intros seen best Ht Hinv; simpl.
  - now rewrite app_nil_r.
  - rewrite Ht. replace (seen ++ pb :: rest) with ((seen ++ [pb]) ++ rest)
      by (now rewrite <- app_assoc).
    destruct (jgt (entryDelta preMap pb) (default jzero (delta <$> best))) eqn:E.
    + apply IH; [assumption|]. eapply best_of_replace; eauto.
    + apply IH; [assumption|]. now apply best_of_keep.
Qed.
End TokenLoop.

Lemma matches_recipient_false message r pb :
  owner pb <> Some r -> pubkey_at message (accountIndex pb) <> Some r ->
  matches_recipient message (Some r) pb = false.
Proof.
  intros Ho Hp. unfold matches_recipient.
  now rewrite !bool_decide_eq_false_2.
Qed.

Lemma matches_recipient_true message r pb :
  owner pb = Some r \/ pubkey_at message (accountIndex pb) = Some r ->
  matches_recipient message (Some r) pb = true.
Proof.
  intros [Ho | Hp]; unfold matches_recipient.
  - now rewrite (bool_decide_eq_true_2 _ Ho).
  - rewrite (bool_decide_eq_true_2 _ Hp). apply orb_true_r.
Qed.

(** C4. Scanning without a recipient, [findDeltaSPL] returns the record of
    the first post entry that carries the largest delta (no entry has a
    greater delta, no earlier entry has the same one) and that delta is
    strictly positive; it returns nothing exactly when no entry has a
    strictly positive delta, so a zero-delta record is never returned. *)
Theorem findDeltaSPL_scan_max_positive
    (meta : GetTransactionMeta) (message : TransactionMessage) (rcpt : option string) :
  truthy rcpt = false ->
  let post := default [] (postTokenBalances meta) in
  let preMap := mkPreMap (default [] (preTokenBalances meta)) in
  match findDeltaSPL meta message rcpt with
  | None => forall pb, pb ∈ post -> jgt (entryDelta preMap pb) jzero = false
  | Some r =>
      jgt (delta r) jzero = true /\
      exists (i : nat) (pb : TokenBalance),
        post !! i = Some pb /\ r = entryRecord preMap pb /\
        (forall pb', pb' ∈ post -> jgt (entryDelta preMap pb') (delta r) = false) /\
        (forall (j : nat) pb', (j < i)%nat -> post !! j = Some pb' ->
           entryDelta preMap pb' <> delta r)
  end.
Proof.
  intros Ht post preMap.
  apply (findDeltaSPL_loop_best preMap message rcpt post [] None Ht).
  intros pb Hin. now apply elem_of_nil in Hin.
Qed.

(** C6. With a recipient supplied, [findDeltaSPL] returns the record of the
    first post entry, in list order, whose owner or whose account key's
    address is the recipient, with that entry's delta whatever its sign. *)
Theorem findDeltaSPL_recipient_first_match
    (meta : GetTransactionMeta) (message : TransactionMessage) (r : string)
    (before : list TokenBalance) (pb : TokenBalance) (after : list TokenBalance) :
  r <> "" ->
  default [] (postTokenBalances meta) = before ++ pb :: after ->
  (forall x, x ∈ before ->
     owner x <> Some r /\ pubkey_at message (accountIndex x) <> Some r) ->
  owner pb = Some r \/ pubkey_at message (accountIndex pb) = Some r ->
  findDeltaSPL meta message (Some r)
  = Some {| spl_accountIndex := accountIndex pb;
            spl_mint := mint pb;
            spl_decimals := default 0 (decimals (uiTokenAmount pb));
            delta := entryDelta (mkPreMap (default [] (preTokenBalances meta))) pb;
            spl_owner := owner pb |}.
Proof.
  intros Hr Hpost Hbefore Hpb. unfold findDeltaSPL. rewrite Hpost.
  apply findDeltaSPL_loop_first_match.
  - now apply truthy_Some.
  - intros x Hx. destruct (Hbefore x Hx). now apply matches_recipient_false.
  - now apply matches_recipient_true.
Qed.

(** C10. With a recipient supplied that no post entry matches, neither by
    owner nor by account key address, [findDeltaSPL] returns nothing,
    whatever the deltas of the entries are. *)
Theorem findDeltaSPL_recipient_unmatched
    (meta : GetTransactionMeta) (message : TransactionMessage) (r : string) :
  r <> "" ->
  (forall x, x ∈ default [] (postTokenBalances meta) ->
     owner x <> Some r /\ pubkey_at message (accountIndex x) <> Some r) ->
  findDeltaSPL meta message (Some r) = None.
Proof.
  intros Hr Hno. unfold findDeltaSPL.
  apply findDeltaSPL_loop_no_match.
  - now apply truthy_Some.
  - intros x Hx. destruct (Hno x Hx). now apply matches_recipient_false.
Qed.

Lemma findDeltaSPL_scan_max_positive_witness :
  truthy None = false /\
  forall pb, pb ∈ default [] (postTokenBalances still_meta) ->
    jgt (entryDelta (mkPreMap (default [] (preTokenBalances still_meta))) pb) jzero = false.
Proof.
  split; [reflexivity|].
  exact (findDeltaSPL_scan_max_positive still_meta sample_message None eq_refl).
Defined.

Lemma findDeltaSPL_recipient_first_match_witness :
  findDeltaSPL sample_meta sample_message (Some "C")
  = Some {| spl_accountIndex := 2; spl_mint := "M"; spl_decimals := 6;
            delta := Fin (-400); spl_owner := Some "C" |}.
Proof.
  apply (findDeltaSPL_recipient_first_match sample_meta sample_message "C"
           [token 1 "M" (Some "B") "7"] (token 2 "M" (Some "C") "100")
           [token 2 "N" (Some "C") "9"]).
  - discriminate.
  - reflexivity.
  - intros x Hx. apply list_elem_of_singleton in Hx. subst x.
    split; vm_compute; discriminate.
  - left. reflexivity.
Defined.

Lemma findDeltaSPL_recipient_unmatched_witness :
  jgt (entryDelta (mkPreMap [token 2 "M" (Some "C") "500"]) (token 1 "M" (Some "B") "7")) jzero = true /\
  findDeltaSPL sample_meta sample_message (Some "Z") = None.
Proof.
  split; [vm_compute; reflexivity|].
  apply (findDeltaSPL_recipient_unmatched sample_meta sample_message "Z").
  - discriminate.
  - intros x Hx. simpl in Hx.
    repeat (apply elem_of_cons in Hx as [-> | Hx]);
      [split; vm_compute; discriminate .. | now apply elem_of_nil in Hx].
Defined.

(** ** The native path: [findDeltaSOL] *)

Section NativeLoop.
Variable meta : GetTransactionMeta.
Variable message : TransactionMessage.

Lemma findDeltaSOL_loop_sentinel rcpt n : forall i bestIdx bestDelta,
  truthy rcpt = true ->
  (forall j, (i <= j < i + n)%nat -> pubkey <$> accountKeys message !! j <> rcpt) ->
  findDeltaSOL_loop meta message rcpt n i bestIdx bestDelta
  = {| index := -1; deltaLamports := jzero |}.
Proof.
  induction n as [|n IH]; intros i bi bd Ht Hno; simpl; rewrite Ht; [reflexivity|].
  rewrite bool_decide_eq_false_2 by (apply Hno; lia).
  apply IH; [assumption|]. intros j Hj. apply Hno. lia.
Qed.

Lemma findDeltaSOL_loop_found rcpt k n : forall i bestIdx bestDelta,
  truthy rcpt = true ->
  (i <= k < i + n)%nat ->
  (forall j, (i <= j < k)%nat -> pubkey <$> accountKeys message !! j <> rcpt) ->
  pubkey <$> accountKeys message !! k = rcpt ->
  findDeltaSOL_loop meta message rcpt n i bestIdx bestDelta
  = {| index := Z.of_nat k; deltaLamports := delta_at meta k |}.
Proof.
  induction n as [|n IH]; intros i bi bd Ht Hk Hno Hyes; [lia|].
  simpl. rewrite Ht. destruct (decide (i = k)) as [->|Hne].
  - now rewrite (bool_decide_eq_true_2 _ Hyes).
  - rewrite bool_decide_eq_false_2 by (apply Hno; lia).
    apply IH; [assumption | lia | | assumption].
    intros j Hj. apply Hno. lia.
Qed.

(** Whatever the recipient, the loop only ever answers with the running
    best, the sentinel, or an index it has visited. *)
Lemma findDeltaSOL_loop_index_bound rcpt n : forall i bestIdx bestDelta,
  bestIdx < Z.of_nat (i + n) ->
  index (findDeltaSOL_loop meta message rcpt n i bestIdx bestDelta) < Z.of_nat (i + n).
Proof.
  induction n as [|n IH]; intros i bi bd Hb; simpl.
  - destruct (truthy rcpt); simpl; lia.
  - replace (i + S n)%nat with (S i + n)%nat in * by lia.
    destruct (truthy rcpt).
    + case_bool_decide; simpl; [lia | now apply IH].
    + destruct (jgt _ bd); apply IH; lia.
Qed.
End NativeLoop.

Lemma findDeltaSOL_index_bound meta message rcpt :
  index (findDeltaSOL meta message rcpt) < Z.of_nat (length (preBalances meta)).
Proof.
  unfold findDeltaSOL.
  apply (findDeltaSOL_loop_index_bound meta message rcpt (length (preBalances meta)) 0).
  lia.
Qed.

(** C2. With a [preBalances] shorter than the account list, the scan for
    a recipient stops before the account that has the recipient's address:
    account 2 has the address C and gained 500 lamports, yet the answer
    for the recipient C is the sentinel and not [(2, 500)]. *)
Theorem findDeltaSOL_recipient_beyond_preBalances :
  let meta := {| fee := Fin 5000; preBalances := [Fin 10];
                 postBalances := [Fin 10; Fin 0; Fin 500];
                 preTokenBalances := None; postTokenBalances := None |} in
  let message := {| accountKeys := [account "A" true true; account "B" false true;
                                    account "C" false true];
                    instructions := Some [] |} in
  pubkey <$> accountKeys message !! 2%nat = Some "C"
  /\ delta_at meta 2 = Fin 500
  /\ findDeltaSOL meta message (Some "C") = {| index := -1; deltaLamports := jzero |}.
Proof. repeat split; reflexivity. Qed.

(** X26. With a recipient supplied, [findDeltaSOL] answers with the first
    account whose address is the recipient, and with the delta of that
    index whatever its sign, provided that account stands at an index below
    the length of [preBalances]; when no account below that length has
    the recipient's address it answers with the sentinel [(-1, 0)],
    whatever the balances are. *)
Theorem findDeltaSOL_recipient_scan
    (meta : GetTransactionMeta) (message : TransactionMessage) (r : string) :
  r <> "" ->
  (forall (k : nat) (acc : AccountMetaKey),
     accountKeys message !! k = Some acc -> pubkey acc = r ->
     (forall (j : nat) acc', (j < k)%nat ->
        accountKeys message !! j = Some acc' -> pubkey acc' <> r) ->
     (k < length (preBalances meta))%nat ->
     findDeltaSOL meta message (Some r)
     = {| index := Z.of_nat k; deltaLamports := delta_at meta k |})
  /\
  ((forall (k : nat) (acc : AccountMetaKey),
      (k < length (preBalances meta))%nat ->
      accountKeys message !! k = Some acc -> pubkey acc <> r) ->
   findDeltaSOL meta message (Some r) = {| index := -1; deltaLamports := jzero |}).
Proof.
  intros Hr. apply truthy_Some in Hr. split.
  - intros k acc Hacc Hpk Hfirst Hk. unfold findDeltaSOL.
    apply (findDeltaSOL_loop_found meta message (Some r) k); try assumption.
    + lia.
    + intros j [_ Hj]. destruct (accountKeys message !! j) as [acc'|] eqn:E; simpl.
      * intros [= Heq]. now apply (Hfirst j acc').
      * discriminate.
    + now rewrite Hacc, <- Hpk.
  - intros Hno. unfold findDeltaSOL.
    apply findDeltaSOL_loop_sentinel; [assumption|].
    intros j Hj. destruct (accountKeys message !! j) as [acc'|] eqn:E; simpl.
    + intros [= Heq]. apply (Hno j acc'); [lia | assumption | assumption].
    + discriminate.
Qed.

Lemma findDeltaSOL_recipient_scan_witness :
  findDeltaSOL sample_meta sample_message (Some "A")
  = {| index := 0; deltaLamports := Fin (-100) |}
  /\ findDeltaSOL sample_meta sample_message (Some "Z")
     = {| index := -1; deltaLamports := jzero |}.
Proof.
  assert (HA : "A" <> "") by discriminate.
  assert (HZ : "Z" <> "") by discriminate.
  split.
  - apply (proj1 (findDeltaSOL_recipient_scan sample_meta sample_message "A" HA)
             0%nat (account "A" true true)); try reflexivity.
    + intros j acc' Hj. lia.
    + simpl. lia.
  - apply (proj2 (findDeltaSOL_recipient_scan sample_meta sample_message "Z" HZ)).
    intros k acc Hk Hacc. simpl in Hk.
    destruct k as [|[|[|k]]]; simpl in Hacc; try lia;
      injection Hacc as <-; discriminate.
Defined.

(** C3. On a transaction whose [preBalances] is shorter than its account
    list, [findDeltaSOL] does not visit the accounts beyond the end of
    [preBalances]: account 0 gained 100 lamports over a missing pre balance
    and is the recipient, yet both scans answer with the sentinel. *)
Theorem findDeltaSOL_short_preBalances :
  let meta := {| fee := Fin 5000; preBalances := []; postBalances := [Fin 100];
                 preTokenBalances := None; postTokenBalances := None |} in
  let message := {| accountKeys := [account "A" true true]; instructions := Some [] |} in
  findDeltaSOL meta message None = {| index := -1; deltaLamports := jzero |}
  /\ findDeltaSOL meta message (Some "A") = {| index := -1; deltaLamports := jzero |}.
Proof. split; reflexivity. Qed.

(** ** [inferParties] *)

Lemma find_writable_after_first_spec keys : forall i,
  match find_writable_after_first keys i with
  | Some k =>
      exists n : nat, keys !! n = Some k /\ (0 < i + n)%nat /\ writable k = true /\
        forall (m : nat) k', (m < n)%nat -> keys !! m = Some k' -> (0 < i + m)%nat ->
          writable k' = false
  | None =>
      forall (n : nat) k, keys !! n = Some k -> (0 < i + n)%nat -> writable k = false
  end.
Proof.
  induction keys as [|k rest IH]; intros i; simpl.
  - intros n k Hn. now rewrite lookup_nil in Hn.
  - destruct (bool_decide (0 < i)%nat && writable k) eqn:E.
    + apply andb_true_iff in E as [Hi%bool_decide_eq_true Hw].
      exists 0%nat. repeat split; [lia | assumption | intros; lia].
    + specialize (IH (S i)).
      destruct (find_writable_after_first rest (S i)) as [k0|].
      * destruct IH as (n & Hn & Hpos & Hw & Hfirst).
        exists (S n). repeat split; [assumption | lia | assumption |].
        intros [|m] k' Hm Hlk Hp; simpl in Hlk.
        -- injection Hlk as <-. apply andb_false_iff in E as [E|E]; [|assumption].
           apply bool_decide_eq_false in E. lia.
        -- apply (Hfirst m); [lia | assumption | lia].
      * intros [|n] k' Hlk Hp; simpl in Hlk.
        -- injection Hlk as <-. apply andb_false_iff in E as [E|E]; [|assumption].
           apply bool_decide_eq_false in E. lia.
        -- apply (IH n); [assumption | lia].
Qed.

(** C8. [inferParties] gives as sender the address at index 0 and as
    recipient the address of the first account at an index above 0 that is
    writable, or no recipient when there is none; for two accounts A, B
    with B writable it gives sender A and recipient B. *)
Theorem inferParties_first_writable (message : TransactionMessage) :
  let keys := accountKeys message in
  sender (inferParties message) = pubkey <$> keys !! 0%nat
  /\ match recipient (inferParties message) with
     | Some a =>
         exists (i : nat) k, (0 < i)%nat /\ keys !! i = Some k /\
           writable k = true /\ pubkey k = a /\
           forall (j : nat) k', (0 < j < i)%nat -> keys !! j = Some k' ->
             writable k' = false
     | None =>
         forall (i : nat) k, (0 < i)%nat -> keys !! i = Some k -> writable k = false
     end
  /\ (forall (A B : string) (sA wA sB : bool) ixs,
        inferParties {| accountKeys := [account A sA wA; account B sB true];
                        instructions := ixs |}
        = {| sender := Some A; recipient := Some B |}).
Proof.
  intros keys. split; [reflexivity|]. split; [|reflexivity].
  unfold inferParties. simpl. fold keys.
  pose proof (find_writable_after_first_spec keys 0) as H.
  destruct (find_writable_after_first keys 0) as [k|]; simpl.
  - destruct H as (n & Hn & Hpos & Hw & Hfirst).
    exists n, k. split; [lia|]. split; [assumption|]. split; [assumption|].
    split; [reflexivity|].
    intros j k' Hj Hlk. apply (Hfirst j); [lia | assumption | lia].
  - intros i k Hi Hlk. apply (H i); [assumption | lia].
Qed.

Lemma inferParties_first_writable_witness :
  inferParties {| accountKeys := [account "A" true true; account "B" false true];
                  instructions := Some [] |}
  = {| sender := Some "A"; recipient := Some "B" |}.
Proof.
  apply (proj2 (proj2 (inferParties_first_writable sample_message))
           "A" "B" true true false (Some [])).
Defined.

(** ** Dispatch and report assembly in [handleFetch] *)

(** C5. The token result is looked at first: when [findDeltaSPL] reports a
    strictly positive delta the asset is the token, whatever the native
    delta is; otherwise, when the native delta is strictly positive the
    asset is native; otherwise the kind is unknown, no amount is reported
    and the report carries the sender and recipient guessed by
    [inferParties]. *)
Theorem analyse_token_before_native
    (sig : string) (res : GetTransactionResponse) (meta : GetTransactionMeta)
    (rcpt : string) :
  let message := message res in
  let rcpt_arg := if bool_decide (rcpt = "") then None else Some rcpt in
  let spl := findDeltaSPL meta message rcpt_arg in
  let sol := findDeltaSOL meta message rcpt_arg in
  let a := analyse sig res meta rcpt in
  (forall s, spl = Some s -> jgt (delta s) jzero = true ->
     an_asset a = AssetSPL (spl_mint s)
                    {| numerator := delta s; divisor := Pow10 (spl_decimals s) |}
                    (spl_decimals s))
  /\ ((spl = None \/ exists s, spl = Some s /\ jgt (delta s) jzero = false) ->
      jgt (deltaLamports sol) jzero = true ->
      an_asset a = AssetSOL {| numerator := deltaLamports sol;
                               divisor := LAMPORTS_PER_SOL |})
  /\ ((spl = None \/ exists s, spl = Some s /\ jgt (delta s) jzero = false) ->
      jgt (deltaLamports sol) jzero = false ->
      an_asset a = AssetUnknown
      /\ buildReport spl sol message rcpt
         = ReportNone (sender (inferParties message)) (recipient (inferParties message))
      /\ an_recipient a = recipient (inferParties message)).
Proof.
  intros message rcpt_arg spl sol a. subst a. unfold analyse.
  fold message. fold rcpt_arg. fold spl. fold sol. simpl.
  split; [|split].
  - intros s Hs Hpos. unfold buildReport. rewrite Hs, Hpos. reflexivity.
  - intros Hspl Hsol. unfold buildReport.
    destruct Hspl as [-> | (s & -> & Hs)]; [|rewrite Hs]; now rewrite Hsol.
  - intros Hspl Hsol. unfold buildReport.
    destruct Hspl as [-> | (s & -> & Hs)]; [|rewrite Hs]; now rewrite Hsol.
Qed.

Lemma analyse_token_before_native_witness :
  jgt (deltaLamports (findDeltaSOL sample_meta sample_message (Some "B"))) jzero = true
  /\ an_asset (analyse "sig" sample_response sample_meta "B")
     = AssetSPL "M" {| numerator := Fin 7; divisor := Pow10 6 |} 6.
Proof.
  split; [vm_compute; reflexivity|].
  apply (proj1 (analyse_token_before_native "sig" sample_response sample_meta "B")
           {| spl_accountIndex := 1; spl_mint := "M"; spl_decimals := 6;
              delta := Fin 7; spl_owner := Some "B" |}).
  - vm_compute. reflexivity.
  - reflexivity.
Defined.

(** ** Sender refinement in [handleFetch] *)

Lemma find_first {A : Type} (f : A -> bool) (before : list A) (x : A) (after : list A) :
  (forall y, y ∈ before -> f y = false) -> f x = true ->
  List.find f (before ++ x :: after) = Some x.
Proof.
  induction before as [|y before IH]; intros Hno Hx; simpl.
  - now rewrite Hx.
  - rewrite (Hno y) by constructor. apply IH; [|assumption].
    intros z Hz. apply Hno. now constructor.
Qed.

Lemma find_none {A : Type} (f : A -> bool) (l : list A) :
  (forall y, y ∈ l -> f y = false) -> List.find f l = None.
Proof.
  induction l as [|y l IH]; intros Hno; simpl; [reflexivity|].
  rewrite (Hno y) by constructor. apply IH.
  intros z Hz. apply Hno. now constructor.
Qed.

Lemma has_info_false ix :
  info_of ix = None -> bool_decide (is_Some (info_of ix)) = false.
Proof. intros ->. apply bool_decide_eq_false. now intros [? ?]. Qed.

Lemma has_info_true ix i :
  info_of ix = Some i -> bool_decide (is_Some (info_of ix)) = true.
Proof. intros ->. apply bool_decide_eq_true. now exists i. Qed.

(** C9, as stated, fails: the first parsed instruction has an [info]
    object without any of the three fields, the second one carries a
    [source]; the sender is the guess of [inferParties], not that source. *)
Lemma refineSender_skips_later_source :
  refineSender budget_then_transfer = Some "A"
  /\ refineSender_spec budget_then_transfer = Some "S"
  /\ refineSender budget_then_transfer <> refineSender_spec budget_then_transfer.
Proof. split; [reflexivity|]. split; [reflexivity|]. discriminate. Qed.

(** C9, amended. The sender is read from the first instruction that has a
    [parsed.info] object: its [source], else its [authority], else its
    [owner], the first of them that is present and non-empty; the guess of
    [inferParties] is used when that object has none of them, when no
    instruction has a [parsed.info] object, and when the instruction list
    cannot be read. *)
Theorem refineSender_first_parsed_info (message : TransactionMessage) :
  (instructions message = None ->
   refineSender message = sender (inferParties message))
  /\ (forall ixs, instructions message = Some ixs ->
       (forall ix, ix ∈ ixs -> info_of ix = None) ->
       refineSender message = sender (inferParties message))
  /\ (forall ixs before ix after i,
       instructions message = Some ixs ->
       ixs = before ++ ix :: after ->
       (forall x, x ∈ before -> info_of x = None) ->
       info_of ix = Some i ->
       refineSender message
       = if truthy (source i) then source i
         else if truthy (authority i) then authority i
         else if truthy (info_owner i) then info_owner i
         else sender (inferParties message)).
Proof.
  unfold refineSender. split; [|split].
  - now intros ->.
  - intros ixs -> Hno. rewrite find_none; [reflexivity|].
    intros y Hy. apply has_info_false. now apply Hno.
  - intros ixs before ix after i -> -> Hno Hi.
    rewrite (find_first _ before ix after).
    + rewrite Hi. simpl. unfold or_else.
      destruct (truthy (source i)) eqn:E1;
        [now repeat (simpl; rewrite ?E1)|].
      destruct (truthy (authority i)) eqn:E2;
        [now repeat (simpl; rewrite ?E1, ?E2)|].
      destruct (truthy (info_owner i)) eqn:E3;
        now repeat (simpl; rewrite ?E1, ?E2, ?E3).
    + intros y Hy. apply has_info_false. now apply Hno.
    + now apply (has_info_true ix i).
Qed.

Lemma refineSender_first_parsed_info_witness :
  refineSender budget_then_transfer = sender (inferParties budget_then_transfer).
Proof.
  apply (proj2 (proj2 (refineSender_first_parsed_info budget_then_transfer))
           [set_compute_unit_limit; transfer_from "S"] [] set_compute_unit_limit
           [transfer_from "S"]
           {| source := None; authority := None; info_owner := None |});
    try reflexivity.
  intros x Hx. now apply elem_of_nil in Hx.
Defined.

(** Where the first instruction with a [parsed.info] object carries one of
    the three addresses, or no instruction carries any, the sender is the
    one the specification describes. *)
Lemma refineSender_agrees_with_spec message ixs :
  instructions message = Some ixs ->
  List.find (fun ix => bool_decide (is_Some (info_of ix))) ixs
  = List.find carries_sender_field ixs ->
  refineSender message = refineSender_spec message.
Proof.
  intros Hixs Hfind. unfold refineSender, refineSender_spec. rewrite Hixs, Hfind.
  destruct (List.find carries_sender_field ixs) as [ix|] eqn:E; [|reflexivity].
  apply List.find_some in E as [_ Hc]. unfold carries_sender_field in Hc.
  unfold or_else.
  destruct (truthy (field_of (info_of ix) source)) eqn:E1;
    [now repeat (simpl; rewrite ?E1)|].
  destruct (truthy (field_of (info_of ix) authority)) eqn:E2;
    [now repeat (simpl; rewrite ?E1, ?E2)|].
  simpl in Hc. now repeat (simpl; rewrite ?E1, ?E2, ?Hc).
Qed.

(** ** [parseSignature] *)

Lemma base58_not_space c : is_base58 c = true -> is_js_space c = false.
Proof.
  destruct c as [[] [] [] [] [] [] [] []]; vm_compute; congruence.
Qed.

Lemma trim_start_id c l : is_js_space c = false -> trim_start (c :: l) = c :: l.
Proof. intros H. simpl. now rewrite H. Qed.

Lemma trim_base58 l : Forall (fun c => is_base58 c = true) l -> trim l = l.
Proof.
  intros Hall. unfold trim, trim_end.
  assert (Hs : forall l', Forall (fun c => is_base58 c = true) l' -> trim_start l' = l').
  { intros [|c l'] H; [reflexivity|]. apply trim_start_id, base58_not_space.
    now inversion H. }
  rewrite (Hs l Hall), Hs; [apply reverse_involutive|].
  now apply Forall_reverse.
Qed.

Lemma class_run_prefix n : forall l, exists rest, l = class_run n l ++ rest.
Proof.
  induction n as [|n IH]; intros [|c l]; simpl; try (now eexists).
  destruct (is_base58 c); [|now eexists].
  destruct (IH l) as [rest Hrest]. exists rest. simpl. now f_equal.
Qed.

Lemma class_run_Forall n : forall l, Forall (fun c => is_base58 c = true) (class_run n l).
Proof.
  induction n as [|n IH]; intros [|c l]; simpl; try constructor.
  destruct (is_base58 c) eqn:E; constructor; auto.
Qed.

Lemma class_run_length n : forall l, (length (class_run n l) <= n)%nat.
Proof.
  induction n as [|n IH]; intros [|c l]; simpl; try lia.
  destruct (is_base58 c); simpl; [|lia]. specialize (IH l). lia.
Qed.

Lemma class_run_covers n : forall sig after,
  Forall (fun c => is_base58 c = true) sig -> (length sig <= n)%nat ->
  (length sig <= length (class_run n (sig ++ after)))%nat.
Proof.
  induction n as [|n IH]; intros [|c sig] after Hall Hlen; simpl in *; try lia.
  inversion Hall as [|? ? Hc Hrest]; subst. rewrite Hc. simpl.
  specialize (IH sig after Hrest). lia.
Qed.

Lemma class_run_all n : forall l,
  Forall (fun c => is_base58 c = true) l -> (length l <= n)%nat -> class_run n l = l.
Proof.
  induction n as [|n IH]; intros [|c l] Hall Hlen; simpl in *; try reflexivity; try lia.
  inversion Hall as [|? ? Hc Hrest]; subst. rewrite Hc. f_equal. apply IH; [assumption|lia].
Qed.

Lemma strip_prefix_Some p : forall l l', strip_prefix p l = Some l' <-> l = p ++ l'.
Proof.
  induction p as [|a p IH]; intros l l'; simpl.
  - split; [now intros [= ->] | now intros ->].
  - destruct l as [|b l]; [split; discriminate|].
    case_bool_decide as Hab.
    + subst b. rewrite IH. split; [now intros -> | now intros [= ->]].
    + split; [discriminate | intros [= -> _]; congruence].
Qed.

Lemma match_group_sound l g :
  match_group l = Some g -> signature_text g /\ exists after, l = g ++ after.
Proof.
  unfold match_group. case_bool_decide as Hlen; [|discriminate].
  intros H. assert (g = class_run 88 l) as -> by congruence. clear H.
  split; [split|].
  - apply class_run_Forall.
  - split; [assumption | apply class_run_length].
  - apply class_run_prefix.
Qed.

Lemma match_group_complete sig after :
  signature_text sig -> is_Some (match_group (sig ++ after)).
Proof.
  intros [Hall [Hlo Hhi]]. unfold match_group.
  pose proof (class_run_covers 88 sig after Hall Hhi).
  rewrite bool_decide_eq_true_2 by lia. now eexists.
Qed.

Lemma match_shapes_sound shapes l g :
  match_shapes shapes l = Some g ->
  exists shape after, shape ∈ shapes /\ l = shape ++ g ++ after /\ signature_text g.
Proof.
  induction shapes as [|p shapes IH]; simpl; [discriminate|].
  destruct (strip_prefix p l) as [l'|] eqn:Ep; simpl.
  - destruct (match_group l') as [g'|] eqn:Eg.
    + intros [= ->]. apply strip_prefix_Some in Ep.
      apply match_group_sound in Eg as [Hsig [after ->]].
      exists p, after. split; [now constructor|]. now split.
    + intros H. destruct (IH H) as (shape & after & Hin & Hl & Hsig).
      exists shape, after. split; [now constructor|]. now split.
  - intros H. destruct (IH H) as (shape & after & Hin & Hl & Hsig).
    exists shape, after. split; [now constructor|]. now split.
Qed.

Lemma match_shapes_complete shapes shape sig after :
  shape ∈ shapes -> signature_text sig ->
  is_Some (match_shapes shapes (shape ++ sig ++ after)).
Proof.
  intros Hin Hsig. induction shapes as [|p shapes IH]; [now apply elem_of_nil in Hin|].
  simpl. destruct (strip_prefix p (shape ++ sig ++ after) ≫= match_group) as [g|] eqn:E;
    [now eexists|].
  apply elem_of_cons in Hin as [-> | Hin]; [|now apply IH].
  exfalso. rewrite (proj2 (strip_prefix_Some p _ (sig ++ after)) eq_refl) in E.
  simpl in E. destruct (match_group_complete sig after Hsig) as [g Hg]. congruence.
Qed.

Lemma match_at_sound at_start l g :
  match_at at_start l = Some g ->
  exists shape after,
    l = shape ++ g ++ after /\
    (shape ∈ url_shapes \/ (shape = [] /\ at_start = true)) /\ signature_text g.
Proof.
  unfold match_at. destruct (match_shapes url_shapes l) as [g'|] eqn:E.
  - intros [= ->]. apply match_shapes_sound in E as (shape & after & Hin & Hl & Hsig).
    exists shape, after. auto.
  - destruct at_start; [|discriminate]. intros Hg.
    apply match_group_sound in Hg as [Hsig [after ->]].
    exists [], after. auto.
Qed.

Lemma match_at_complete at_start shape sig after :
  shape ∈ url_shapes \/ (shape = [] /\ at_start = true) -> signature_text sig ->
  is_Some (match_at at_start (shape ++ sig ++ after)).
Proof.
  intros Hshape Hsig. unfold match_at.
  destruct (match_shapes url_shapes (shape ++ sig ++ after)) as [g|] eqn:E; [now eexists|].
  destruct Hshape as [Hin | [-> ->]].
  - destruct (match_shapes_complete url_shapes shape sig after Hin Hsig). congruence.
  - simpl. now apply match_group_complete.
Qed.

Lemma regex_search_sound l : forall at_start g,
  regex_search at_start l = Some g ->
  exists before rest,
    l = before ++ rest /\ match_at (at_start && bool_decide (before = [])) rest = Some g.
Proof.
  induction l as [|c l IH]; intros at_start g; simpl.
  - destruct (match_at at_start []) as [g'|] eqn:E; [|discriminate].
    intros [= ->]. exists [], []. now rewrite andb_true_r.
  - destruct (match_at at_start (c :: l)) as [g'|] eqn:E.
    + intros [= ->]. exists [], (c :: l). now rewrite andb_true_r.
    + intros H. destruct (IH false g H) as (before & rest & -> & Hm).
      exists (c :: before), rest. split; [reflexivity|].
      now rewrite andb_false_r.
Qed.

Lemma regex_search_complete before : forall at_start rest,
  is_Some (match_at (at_start && bool_decide (before = [])) rest) ->
  is_Some (regex_search at_start (before ++ rest)).
Proof.
  induction before as [|c before IH]; intros at_start rest Hm; simpl.
  - rewrite andb_true_r in Hm. destruct Hm as [g Hg].
    destruct rest; simpl; rewrite Hg; now eexists.
  - destruct (match_at at_start (c :: before ++ rest)); [now eexists|].
    apply IH. now rewrite andb_false_r in Hm.
Qed.

Lemma regex_search_recognised t g :
  regex_search true t = Some g -> recognised t g.
Proof.
  intros H. apply regex_search_sound in H as (before & rest & -> & Hm).
  apply match_at_sound in Hm as (shape & after & -> & Hshape & Hsig).
  exists before, shape, after. split; [reflexivity|]. split; [|assumption].
  destruct Hshape as [Hin | [-> Hb]]; [now left | right].
  split; [reflexivity|]. simpl in Hb. now apply bool_decide_eq_true in Hb.
Qed.

Lemma recognised_regex_search t sig :
  recognised t sig -> is_Some (regex_search true t).
Proof.
  intros (before & shape & after & -> & Hshape & Hsig).
  apply regex_search_complete, match_at_complete; [|assumption].
  destruct Hshape as [Hin | [-> ->]]; [now left | now right].
Qed.

Lemma recognised_nonempty t sig : recognised t sig -> t <> [].
Proof.
  intros (before & shape & after & -> & _ & _ & Hlen & _) Hnil.
  apply (f_equal length) in Hnil. rewrite !length_app in Hnil. simpl in Hnil. lia.
Qed.

Lemma url_shapes_not_base58 shape :
  shape ∈ url_shapes -> ~ Forall (fun c => is_base58 c = true) shape.
Proof.
  unfold url_shapes. intros Hin Hall.
  repeat (apply elem_of_cons in Hin as [-> | Hin]);
    [ .. | now apply elem_of_nil in Hin];
    apply Forall_forall with (x := "."%char) in Hall;
    try (vm_compute in Hall; discriminate);
    apply list_elem_of_In; vm_compute; tauto.
Qed.

Lemma forallb_base58 l :
  forallb is_base58 l = true -> Forall (fun c => is_base58 c = true) l.
Proof.
  induction l as [|c l IH]; simpl; [constructor|].
  intros [Hc Hl]%andb_true_iff. constructor; auto.
Qed.

Lemma parseSignature_raw s : signature_text (chars s) -> parseSignature s = Some s.
Proof.
  intros [Hall [Hlo Hhi]]. unfold parseSignature. rewrite (trim_base58 _ Hall).
  destruct (chars s) as [|c l] eqn:El; [simpl in Hlo; lia|]. rewrite <- El in *.
  assert (Hsearch : regex_search true (chars s) = Some (chars s)).
  { assert (Hat : match_at true (chars s) = Some (chars s)).
    { unfold match_at.
      destruct (match_shapes url_shapes (chars s)) as [g|] eqn:E.
      - exfalso. apply match_shapes_sound in E as (shape & after & Hin & Hs & _).
        apply (url_shapes_not_base58 shape Hin).
        rewrite Hs in Hall. now apply Forall_app in Hall as [? _].
      - unfold match_group. rewrite (class_run_all 88 _ Hall Hhi).
        now rewrite bool_decide_eq_true_2. }
    rewrite El in *. simpl. now rewrite Hat. }
  rewrite Hsearch. simpl. f_equal. apply string_of_list_ascii_of_string.
Qed.

Lemma parseSignature_Some input s :
  parseSignature input = Some s -> recognised (trim (chars input)) (chars s).
Proof.
  unfold parseSignature. destruct (trim (chars input)) as [|c t] eqn:Et; [discriminate|].
  destruct (regex_search true (c :: t)) as [g|] eqn:E; [|discriminate].
  intros H. assert (s = string_of_list_ascii g) as -> by (simpl in H; congruence).
  unfold chars. rewrite list_ascii_of_string_of_list_ascii.
  now apply regex_search_recognised.
Qed.

Lemma parseSignature_None input :
  parseSignature input = None <-> forall sig, ~ recognised (trim (chars input)) sig.
Proof.
  split.
  - intros Hnone sig Hrec. unfold parseSignature in Hnone.
    pose proof (recognised_nonempty _ _ Hrec) as Hne.
    destruct (recognised_regex_search _ _ Hrec) as [g Hg].
    destruct (trim (chars input)) as [|c t]; [congruence|].
    rewrite Hg in Hnone. discriminate.
  - intros Hno. destruct (parseSignature input) as [s|] eqn:E; [|reflexivity].
    exfalso. apply (Hno (chars s)). now apply parseSignature_Some.
Qed.

(** C7, as stated, fails: 84 characters of the base58 alphabet are not
    taken as a signature. *)
Lemma parseSignature_rejects_84 :
  forallb is_base58 (chars text84) = true
  /\ length (chars text84) = 84%nat
  /\ parseSignature text84 = None.
Proof. repeat split; vm_compute; reflexivity. Qed.

(** C7, amended. A text of 87 or 88 base58 characters is its own
    signature; a signature that is returned stands in the trimmed input at
    its very start or right after one of the three explorer path shapes and
    has 87 or 88 base58 characters; no signature is returned exactly when
    the trimmed input has no such place; and then [handleFetch] only sets
    the validation error, without calling the RPC node. *)
Theorem parseSignature_recognition :
  (forall s, signature_text (chars s) -> parseSignature s = Some s)
  /\ (forall input s, parseSignature input = Some s ->
        recognised (trim (chars input)) (chars s))
  /\ (forall input, parseSignature input = None <->
        forall sig, ~ recognised (trim (chars input)) sig)
  /\ (forall t rpc input rcpt st, parseSignature input = None ->
        handleFetch t rpc input rcpt st
        = {| st_loading := st_loading st; st_error := Some (validTxLink t);
             st_tx := None; st_analysis := None; st_calls := st_calls st |}).
Proof.
  split; [exact parseSignature_raw|].
  split; [exact parseSignature_Some|].
  split; [exact parseSignature_None|].
  intros t rpc input rcpt st Hnone. unfold handleFetch. now rewrite Hnone.
Qed.

Lemma parseSignature_recognition_witness :
  parseSignature text88 = Some text88
  /\ st_calls (handleFetch sample_locale (fun _ => RpcReturns None) "not a signature"
                 "" idle) = [].
Proof.
  split.
  - apply (proj1 parseSignature_recognition text88).
    split; [apply forallb_base58; vm_compute; reflexivity | vm_compute; lia].
  - rewrite (proj2 (proj2 (proj2 parseSignature_recognition)) sample_locale
               (fun _ => RpcReturns None) "not a signature" "" idle);
      [reflexivity | vm_compute; reflexivity].
Defined.

(** ** Keys of the pre-balance map *)

Lemma pretty_N_go_no_colon x : forall s,
  has_colon s = false -> has_colon (pretty_N_go x s) = false.
Proof.
  induction (N.lt_wf_0 x) as [x _ IH]. intros s Hs.
  destruct (decide (x = 0)%N) as [->|Hx].
  - now rewrite pretty_N_go_0.
  - rewrite pretty_N_go_step by lia. apply IH.
    + apply N.div_lt; lia.
    + simpl. rewrite Hs, orb_false_r. apply bool_decide_eq_false.
      unfold pretty_N_char. repeat case_match; discriminate.
Qed.

Lemma pretty_positive_no_colon (p : positive) : has_colon (pretty p) = false.
Proof.
  unfold pretty, pretty_positive, pretty, pretty_N.
  case_decide; [reflexivity|]. now apply pretty_N_go_no_colon.
Qed.

Lemma pretty_Z_no_colon (z : Z) : has_colon (pretty z) = false.
Proof.
  destruct z as [|p|p]; [reflexivity | apply pretty_positive_no_colon |].
  change (pretty (Z.neg p)) with (String "-"%char (pretty p)).
  simpl. rewrite pretty_positive_no_colon. reflexivity.
Qed.

Lemma colon_split s1 : forall s2 m1 m2,
  has_colon s1 = false -> has_colon s2 = false ->
  s1 +:+ ":" +:+ m1 = s2 +:+ ":" +:+ m2 -> s1 = s2 /\ m1 = m2.
Proof.
  induction s1 as [|c1 s1 IH]; intros [|c2 s2] m1 m2 H1 H2 Heq;
    unfold String.app in Heq; simpl in *.
  - injection Heq as ->. auto.
  - injection Heq as <- _. rewrite bool_decide_eq_true_2 in H2 by reflexivity.
    discriminate.
  - injection Heq as -> _. rewrite bool_decide_eq_true_2 in H1 by reflexivity.
    discriminate.
  - injection Heq as -> Heq.
    apply orb_false_iff in H1 as [_ H1]. apply orb_false_iff in H2 as [_ H2].
    destruct (IH s2 m1 m2 H1 H2 Heq) as [-> ->]. auto.
Qed.

(** Two entries have the same key exactly when they have the same account
    index and the same mint. *)
Lemma key_eq_iff b1 b2 :
  key b1 = key b2 <-> accountIndex b1 = accountIndex b2 /\ mint b1 = mint b2.
Proof.
  unfold key. split.
  - intros H. apply colon_split in H as [H1 H2]; try apply pretty_Z_no_colon.
    split; [|assumption]. now apply (inj pretty).
  - now intros [-> ->].
Qed.

Lemma foldl_insert_lookup pb pre : forall m : gmap string TokenBalance,
  foldl (fun m b => <[key b := b]> m) m pre !! key pb
  = match pre_entry pre pb with
    | Some p => Some p
    | None => m !! key pb
    end.
Proof.
  unfold pre_entry. induction pre as [|b pre IH]; intros m; simpl; [reflexivity|].
  rewrite IH. rewrite filter_cons.
  destruct (decide (same_account_mint pb b)) as [Hsame|Hdiff].
  - rewrite last_cons.
    destruct (last (filter (same_account_mint pb) pre)); [reflexivity|].
    assert (key b = key pb) as -> by (now apply key_eq_iff).
    apply lookup_insert_eq.
  - destruct (last (filter (same_account_mint pb) pre)); [reflexivity|].
    apply lookup_insert_ne. intros Hk. apply Hdiff. now apply key_eq_iff.
Qed.

(** The map built from [pre] answers with the last pre entry of the same
    account index and mint. *)
Lemma mkPreMap_lookup pre pb : mkPreMap pre !! key pb = pre_entry pre pb.
Proof.
  unfold mkPreMap. rewrite foldl_insert_lookup.
  destruct (pre_entry pre pb); [reflexivity | apply lookup_empty].
Qed.

(** ** Exactness of the token delta *)

Lemma Number_denotes s z : denotes s z -> Number s = to_double z.
Proof.
  unfold denotes, Number. intros H.
  destruct (trim (chars s)) as [|c t]; [discriminate|]. now rewrite H.
Qed.

(** C1, as stated, fails: amounts above [2^53] are rounded. A post amount
    of [2^53 + 1] with no pre entry gives the delta [2^53], and amounts
    [2^53 + 1] and [2^53 + 2] give the delta [2] instead of [1]; all of
    them are far below [2^63]. *)
Lemma entryDelta_rounds_above_two53 :
  denotes (amount (uiTokenAmount large_post)) 9007199254740993
  /\ pre_entry [] large_post = None
  /\ 9007199254740993 < 2 ^ 63
  /\ entryDelta (mkPreMap []) large_post = Fin 9007199254740992
  /\ delta <$> findDeltaSPL large_meta sample_message None = Some (Fin 9007199254740992)
  /\ Fin 9007199254740992 <> Fin (9007199254740993 - 0)
  /\ denotes (amount (uiTokenAmount large_next)) 9007199254740994
  /\ pre_entry [large_pre] large_next = Some large_pre
  /\ entryDelta (mkPreMap [large_pre]) large_next = Fin 2.
Proof.
  repeat split; try (vm_compute; reflexivity). discriminate.
Qed.

Lemma entryDelta_within_two53 pre pb a b :
  denotes (amount (uiTokenAmount pb)) a ->
  match pre_entry pre pb with
  | Some p => denotes (amount (uiTokenAmount p)) b
  | None => b = 0
  end ->
  Z.abs a <= two53 -> Z.abs b <= two53 -> Z.abs (a - b) <= two53 ->
  entryDelta (mkPreMap pre) pb = Fin (a - b).
Proof.
  intros Ha Hb Hra Hrb Hrd. unfold entryDelta.
  rewrite mkPreMap_lookup, (Number_denotes _ _ Ha), (to_double_exact a Hra).
  destruct (pre_entry pre pb) as [p|].
  - rewrite (Number_denotes _ _ Hb), (to_double_exact b Hrb). simpl.
    now apply to_double_exact.
  - subst b. unfold jzero. simpl. now apply to_double_exact.
Qed.

(** Every record [findDeltaSPL] returns is built from one of the post
    entries, with the delta computed for that entry. *)
Lemma findDeltaSPL_loop_result preMap message rcpt post : forall best r,
  findDeltaSPL_loop preMap message rcpt post best = Some r ->
  best = Some r \/ exists pb, pb ∈ post /\ r = entryRecord preMap pb.
Proof.
  induction post as [|pb rest IH]; intros best r; simpl; [now left|].
  assert (Hrest : forall b, findDeltaSPL_loop preMap message rcpt rest b = Some r ->
            b = Some r \/ exists pb', pb' ∈ pb :: rest /\ r = entryRecord preMap pb').
  { intros b Hb. destruct (IH b r Hb) as [-> | (pb' & Hin & ->)]; [now left | right].
    exists pb'. split; [now constructor | reflexivity]. }
  assert (Hhere : exists pb', pb' ∈ pb :: rest /\ entryRecord preMap pb = entryRecord preMap pb').
  { exists pb. split; [constructor | reflexivity]. }
  destruct (truthy rcpt).
  - destruct (matches_recipient message rcpt pb).
    + intros [= <-]. now right.
    + apply Hrest.
  - destruct (jgt _ _).
    + intros H. destruct (Hrest _ H) as [[= <-] | ?]; now right.
    + apply Hrest.
Qed.

(** C1, amended. For a post entry whose amount denotes the integer [a] and
    whose pre entry (the last one with the same account index and mint)
    denotes [b], or is missing with [b = 0], the delta computed for that
    entry is exactly [a - b] whenever [a], [b] and [a - b] have a magnitude
    of at most [2^53]; and the delta of a record that [findDeltaSPL]
    returns is the delta computed for the post entry it is built from. *)
Theorem entryDelta_exact :
  (forall (pre : list TokenBalance) (pb : TokenBalance) (a b : Z),
     denotes (amount (uiTokenAmount pb)) a ->
     match pre_entry pre pb with
     | Some p => denotes (amount (uiTokenAmount p)) b
     | None => b = 0
     end ->
     Z.abs a <= two53 -> Z.abs b <= two53 -> Z.abs (a - b) <= two53 ->
     entryDelta (mkPreMap pre) pb = Fin (a - b))
  /\ (forall meta message rcpt r,
        findDeltaSPL meta message rcpt = Some r ->
        exists pb, pb ∈ default [] (postTokenBalances meta)
          /\ delta r = entryDelta (mkPreMap (default [] (preTokenBalances meta))) pb).
Proof.
  split; [exact entryDelta_within_two53|].
  intros meta message rcpt r Hr. unfold findDeltaSPL in Hr.
  apply findDeltaSPL_loop_result in Hr as [[=] | (pb' & Hin & ->)].
  now exists pb'.
Qed.

Lemma entryDelta_exact_witness :
  entryDelta (mkPreMap [token 2 "M" (Some "C") "500"]) (token 2 "M" (Some "C") "100")
  = Fin (100 - 500).
Proof.
  apply (proj1 entryDelta_exact [token 2 "M" (Some "C") "500"]
           (token 2 "M" (Some "C") "100") 100 500).
  - vm_compute. reflexivity.
  - vm_compute. reflexivity.
  - vm_compute. discriminate.
  - vm_compute. discriminate.
  - vm_compute. discriminate.
Defined.

(** Unsigned amounts up to [2^53], the case of token supplies. *)
Corollary entryDelta_exact_unsigned pre pb a b :
  denotes (amount (uiTokenAmount pb)) a ->
  match pre_entry pre pb with
  | Some p => denotes (amount (uiTokenAmount p)) b
  | None => b = 0
  end ->
  0 <= a <= two53 -> 0 <= b <= two53 ->
  entryDelta (mkPreMap pre) pb = Fin (a - b).
Proof. intros Ha Hb Hra Hrb. apply entryDelta_within_two53; try assumption; lia. Qed.

(** * Further properties of the code *)

(** ** The native scan without a recipient *)

Lemma jgt_trans a b c : jgt a b = true -> jgt b c = true -> jgt a c = true.
Proof.
  destruct a, b, c; simpl; try reflexivity; try discriminate.
  intros H1%bool_decide_eq_true H2%bool_decide_eq_true.
  apply bool_decide_eq_true. lia.
Qed.

Lemma sol_best_of_keep meta i bestIdx bestDelta :
  sol_best_of meta i bestIdx bestDelta ->
  jgt (delta_at meta i) bestDelta = false ->
  sol_best_of meta (S i) bestIdx bestDelta.
Proof.
  intros [(-> & -> & Hnone) | (k & -> & Hk & -> & Hpos & Hmax & Hfirst)] Hle.
  - left. split; [reflexivity|]. split; [reflexivity|].
    intros j Hj. destruct (decide (j = i)) as [->|Hne]; [assumption|].
    apply Hnone. lia.
  - right. exists k. split; [reflexivity|]. split; [lia|]. split; [reflexivity|].
    split; [assumption|]. split; [|assumption].
    intros j Hj. destruct (decide (j = i)) as [->|Hne]; [assumption|].
    apply Hmax. lia.
Qed.

Lemma sol_best_of_replace meta i bestIdx bestDelta :
  sol_best_of meta i bestIdx bestDelta ->
  jgt (delta_at meta i) bestDelta = true ->
  sol_best_of meta (S i) (Z.of_nat i) (delta_at meta i).
Proof.
  intros Hinv Hgt.
  assert (Hbelow : forall j : nat, (j < i)%nat -> jgt (delta_at meta j) bestDelta = false).
  { destruct Hinv as [(_ & -> & Hnone) | (k & _ & _ & _ & _ & Hmax & _)]; assumption. }
  assert (Hpos : jgt (delta_at meta i) jzero = true).
  { destruct Hinv as [(_ & -> & _) | (k & _ & _ & _ & Hp & _ & _)]; [assumption|].
    now apply (jgt_trans _ bestDelta). }
  right. exists i. split; [reflexivity|]. split; [lia|]. split; [reflexivity|].
  split; [assumption|]. split.
  - intros j Hj. destruct (decide (j = i)) as [->|Hne]; [apply jgt_irrefl|].
    apply (jgt_not_above _ bestDelta); [assumption|]. apply Hbelow. lia.
  - intros j Hj. apply (jgt_neq _ bestDelta); [assumption|]. now apply Hbelow.
Qed.

Lemma findDeltaSOL_loop_best meta message rcpt n : forall i bestIdx bestDelta,
  truthy rcpt = false ->
  sol_best_of meta i bestIdx bestDelta ->
  let r := findDeltaSOL_loop meta message rcpt n i bestIdx bestDelta in
  sol_best_of meta (i + n) (index r) (deltaLamports r).
Proof.
  induction n as [|n IH]; intros i bi bd Ht Hinv; simpl.
  - rewrite Ht. simpl. now rewrite Nat.add_0_r.
  - rewrite Ht. replace (i + S n)%nat with (S i + n)%nat by lia.
    fold (delta_at meta i).
    destruct (jgt (delta_at meta i) bd) eqn:E.
    + apply IH; [assumption|]. now apply (sol_best_of_replace meta i bi bd).
    + apply IH; [assumption|]. now apply sol_best_of_keep.
Qed.

Lemma findDeltaSOL_scan meta message rcpt :
  truthy rcpt = false ->
  let r := findDeltaSOL meta message rcpt in
  sol_best_of meta (length (preBalances meta)) (index r) (deltaLamports r).
Proof.
  intros Ht. unfold findDeltaSOL.
  apply (findDeltaSOL_loop_best meta message rcpt (length (preBalances meta)) 0 (-1) jzero Ht).
  left. split; [reflexivity|]. split; [reflexivity|]. intros j Hj. lia.
Qed.

(** X1. Without a recipient [findDeltaSOL] answers with the first index,
    below the length of [preBalances], that carries the largest delta,
    provided that delta is strictly positive; it answers with the sentinel
    exactly when no such index has a strictly positive delta. *)
Theorem findDeltaSOL_scan_max_positive
    (meta : GetTransactionMeta) (message : TransactionMessage) (rcpt : option string) :
  truthy rcpt = false ->
  let r := findDeltaSOL meta message rcpt in
  let n := length (preBalances meta) in
  (r = {| index := -1; deltaLamports := jzero |} /\
   forall j : nat, (j < n)%nat -> jgt (delta_at meta j) jzero = false)
  \/
  (exists k : nat,
     r = {| index := Z.of_nat k; deltaLamports := delta_at meta k |} /\
     (k < n)%nat /\ jgt (delta_at meta k) jzero = true /\
     (forall j : nat, (j < n)%nat -> jgt (delta_at meta j) (delta_at meta k) = false) /\
     (forall j : nat, (j < k)%nat -> delta_at meta j <> delta_at meta k)).
Proof.
  intros Ht r n. pose proof (findDeltaSOL_scan meta message rcpt Ht) as H.
  fold r in H. fold n in H. simpl in H. destruct r as [ri rd]. simpl in H.
  destruct H as [(-> & -> & Hnone) | (k & -> & Hk & -> & Hpos & Hmax & Hfirst)].
  - left. auto.
  - right. exists k. auto.
Qed.

Lemma findDeltaSOL_scan_max_positive_witness :
  exists k : nat,
    findDeltaSOL sample_meta sample_message None
    = {| index := Z.of_nat k; deltaLamports := delta_at sample_meta k |}
    /\ jgt (delta_at sample_meta k) jzero = true.
Proof.
  destruct (findDeltaSOL_scan_max_positive sample_meta sample_message None eq_refl)
    as [[H _] | (k & H & _ & Hpos & _)]; [vm_compute in H; discriminate|].
  exists k. split; assumption.
Defined.

(** X2. When exactly one index below the length of [preBalances] has a
    strictly positive delta, the scan without a recipient answers with
    that index and that delta. *)
Theorem findDeltaSOL_single_positive
    (meta : GetTransactionMeta) (message : TransactionMessage) (rcpt : option string)
    (k : nat) :
  truthy rcpt = false ->
  (k < length (preBalances meta))%nat ->
  jgt (delta_at meta k) jzero = true ->
  (forall j : nat, (j < length (preBalances meta))%nat -> j <> k ->
     jgt (delta_at meta j) jzero = false) ->
  findDeltaSOL meta message rcpt
  = {| index := Z.of_nat k; deltaLamports := delta_at meta k |}.
Proof.
  intros Ht Hk Hpos Hothers.
  pose proof (findDeltaSOL_scan meta message rcpt Ht) as H. simpl in H.
  destruct (findDeltaSOL meta message rcpt) as [ri rd]. simpl in H.
  destruct H as [(-> & -> & Hnone) | (k' & -> & Hk' & -> & Hpos' & Hmax & Hfirst)].
  - rewrite (Hnone k Hk) in Hpos. discriminate.
  - destruct (decide (k' = k)) as [->|Hne]; [reflexivity|].
    rewrite (Hothers k' Hk' Hne) in Hpos'. discriminate.
Qed.

Lemma findDeltaSOL_single_positive_witness :
  findDeltaSOL sample_meta sample_message None
  = {| index := 1; deltaLamports := delta_at sample_meta 1 |}.
Proof.
  apply (findDeltaSOL_single_positive sample_meta sample_message None 1).
  - reflexivity.
  - simpl. lia.
  - vm_compute. reflexivity.
  - intros j Hj Hne. simpl in Hj.
    destruct j as [|[|[|j]]]; [vm_compute; reflexivity | lia | vm_compute; reflexivity | lia].
Defined.

(** ** The answer of [findDeltaSOL] in both modes *)

Lemma findDeltaSOL_loop_shape meta message rcpt n : forall i bestIdx bestDelta,
  (bestIdx = -1 /\ bestDelta = jzero) \/
  (exists k : nat, bestIdx = Z.of_nat k /\ (k < i)%nat /\ bestDelta = delta_at meta k) ->
  let r := findDeltaSOL_loop meta message rcpt n i bestIdx bestDelta in
  r = {| index := -1; deltaLamports := jzero |} \/
  exists k : nat,
    (k < i + n)%nat /\
    r = {| index := Z.of_nat k; deltaLamports := delta_at meta k |} /\
    (truthy rcpt = true -> pubkey <$> accountKeys message !! k = rcpt).
Proof.
  induction n as [|n IH]; intros i bi bd Hacc; simpl.
  - destruct (truthy rcpt) eqn:Ht; [now left|].
    destruct Hacc as [[-> ->] | (k & -> & Hk & ->)]; [now left | right].
    exists k. split; [lia|]. split; [reflexivity | discriminate].
  - replace (i + S n)%nat with (S i + n)%nat by lia. fold (delta_at meta i).
    assert (Hnext : (bi = -1 /\ bd = jzero) \/
              (exists k : nat, bi = Z.of_nat k /\ (k < S i)%nat /\ bd = delta_at meta k)).
    { destruct Hacc as [? | (k & ? & ? & ?)]; [now left | right].
      exists k. split; [assumption|]. split; [lia | assumption]. }
    destruct (truthy rcpt) eqn:Ht.
    + case_bool_decide as Hm.
      * right. exists i. split; [lia|]. split; [reflexivity | now intros _].
      * exact (IH (S i) bi bd Hnext).
    + destruct (jgt (delta_at meta i) bd).
      * apply (IH (S i)). right. exists i. split; [reflexivity|]. split; [lia | reflexivity].
      * apply (IH (S i)). assumption.
Qed.

(** X3. Whatever the recipient argument, [findDeltaSOL] answers with the
    sentinel [(-1, 0)] or with an index below the length of [preBalances]
    together with the delta of that very index; with a recipient, the
    account at a returned index has the recipient's address. *)
Theorem findDeltaSOL_answer_shape
    (meta : GetTransactionMeta) (message : TransactionMessage) (rcpt : option string) :
  findDeltaSOL meta message rcpt = {| index := -1; deltaLamports := jzero |}
  \/ exists k : nat,
       (k < length (preBalances meta))%nat /\
       findDeltaSOL meta message rcpt
       = {| index := Z.of_nat k; deltaLamports := delta_at meta k |} /\
       (truthy rcpt = true -> pubkey <$> accountKeys message !! k = rcpt).
Proof.
  unfold findDeltaSOL.
  apply (findDeltaSOL_loop_shape meta message rcpt (length (preBalances meta)) 0 (-1) jzero).
  now left.
Qed.

Lemma findDeltaSOL_answer_shape_witness :
  pubkey <$> accountKeys sample_message !! 1%nat = Some "B".
Proof.
  destruct (findDeltaSOL_answer_shape sample_meta sample_message (Some "B"))
    as [H | (k & _ & H & Hkey)]; [vm_compute in H; discriminate|].
  assert (Hk : k = 1%nat).
  { assert (E : findDeltaSOL sample_meta sample_message (Some "B")
                = {| index := 1; deltaLamports := Fin 100 |}) by (vm_compute; reflexivity).
    rewrite E in H. injection H as Hk _. lia. }
  subst k. now apply Hkey.
Defined.

(** ** Keys and lookups of the pre-balance map *)

(** X4. Two token balance entries get the same map key exactly when they
    have the same account index and the same mint, also when a mint text
    contains the separator [:]. *)
Theorem key_collision_free (b1 b2 : TokenBalance) :
  key b1 = key b2 <-> accountIndex b1 = accountIndex b2 /\ mint b1 = mint b2.
Proof. apply key_eq_iff. Qed.

Lemma filter_none {A : Type} (P : A -> Prop) `{forall x, Decision (P x)} (l : list A) :
  (forall x, x ∈ l -> ~ P x) -> filter P l = [].
Proof.
  induction l as [|x l IH]; intros Hno; [reflexivity|].
  rewrite filter_cons_False by (apply Hno; constructor).
  apply IH. intros y Hy. apply Hno. now constructor.
Qed.

(** X5. The pre balance that [findDeltaSPL] pairs with a post entry is the
    last entry of [preTokenBalances] with the same account index and mint:
    a later duplicate replaces an earlier one, and without such an entry
    the lookup finds nothing (the pre amount is then 0). *)
Theorem mkPreMap_last_entry_wins (pre : list TokenBalance) (pb : TokenBalance) :
  (forall l1 p l2,
     pre = l1 ++ p :: l2 ->
     accountIndex p = accountIndex pb -> mint p = mint pb ->
     (forall q, q ∈ l2 -> ~ (accountIndex q = accountIndex pb /\ mint q = mint pb)) ->
     mkPreMap pre !! key pb = Some p)
  /\ ((forall q, q ∈ pre -> ~ (accountIndex q = accountIndex pb /\ mint q = mint pb)) ->
      mkPreMap pre !! key pb = None
      /\ entryDelta (mkPreMap pre) pb = jsub (Number (amount (uiTokenAmount pb))) jzero).
Proof.
  split.
  - intros l1 p l2 -> Hi Hm Hlater. rewrite mkPreMap_lookup. unfold pre_entry.
    rewrite filter_app, filter_cons_True by (now split).
    rewrite (filter_none _ l2) by exact Hlater.
    apply last_snoc.
  - intros Hno.
    assert (Hnone : mkPreMap pre !! key pb = None).
    { rewrite mkPreMap_lookup. unfold pre_entry.
      now rewrite (filter_none _ pre) by exact Hno. }
    split; [assumption|]. unfold entryDelta. now rewrite Hnone.
Qed.

Lemma mkPreMap_last_entry_wins_witness :
  mkPreMap [token 2 "M" (Some "C") "500"; token 2 "M" (Some "C") "70"; token 1 "M" None "9"]
    !! key (token 2 "M" (Some "B") "100")
  = Some (token 2 "M" (Some "C") "70").
Proof.
  apply (proj1 (mkPreMap_last_entry_wins _ (token 2 "M" (Some "B") "100"))
           [token 2 "M" (Some "C") "500"] (token 2 "M" (Some "C") "70")
           [token 1 "M" None "9"]); try reflexivity.
  intros q Hq. apply list_elem_of_singleton in Hq. subst q.
  intros [Hi _]. vm_compute in Hi. discriminate.
Defined.

(** ** What [findDeltaSPL] returns *)

(** X6. A record returned by [findDeltaSPL] is always built from one entry
    of [postTokenBalances]: account index, mint and owner are that
    entry's, the decimals are the post entry's (0 when missing) and the
    delta is the one computed for it.  An account that appears only in
    [preTokenBalances] is never reported. *)
Theorem findDeltaSPL_record_from_post
    (meta : GetTransactionMeta) (message : TransactionMessage) (rcpt : option string)
    (r : SplDelta) :
  findDeltaSPL meta message rcpt = Some r ->
  exists pb, pb ∈ default [] (postTokenBalances meta) /\
    spl_accountIndex r = accountIndex pb /\ spl_mint r = mint pb /\
    spl_owner r = owner pb /\
    spl_decimals r = default 0 (decimals (uiTokenAmount pb)) /\
    delta r = entryDelta (mkPreMap (default [] (preTokenBalances meta))) pb.
Proof.
  intros Hr. unfold findDeltaSPL in Hr.
  apply findDeltaSPL_loop_result in Hr as [[=] | (pb & Hin & ->)].
  exists pb. repeat split; assumption || reflexivity.
Qed.

Lemma findDeltaSPL_record_from_post_witness :
  exists pb, pb ∈ default [] (postTokenBalances sample_meta) /\
    accountIndex pb = 2 /\ mint pb = "N".
Proof.
  destruct (findDeltaSPL_record_from_post sample_meta sample_message None
              {| spl_accountIndex := 2; spl_mint := "N"; spl_decimals := 6;
                 delta := Fin 9; spl_owner := Some "C" |})
    as (pb & Hin & Hi & Hm & _); [vm_compute; reflexivity|].
  exists pb. simpl in Hi, Hm. auto.
Defined.

Lemma findDeltaSPL_loop_recipient_sound preMap message rcpt post : forall best r,
  truthy rcpt = true ->
  findDeltaSPL_loop preMap message rcpt post best = Some r ->
  best = Some r \/
  exists pb, pb ∈ post /\ r = entryRecord preMap pb /\
    matches_recipient message rcpt pb = true.
Proof.
  induction post as [|pb rest IH]; intros best r Ht Hr; simpl in Hr; [now left|].
  rewrite Ht in Hr. destruct (matches_recipient message rcpt pb) eqn:Em.
  - injection Hr as <-. right. exists pb. split; [constructor | auto].
  - destruct (IH best r Ht Hr) as [? | (pb' & Hin & ? & ?)]; [now left | right].
    exists pb'. split; [now constructor | auto].
Qed.

(** X7. With a recipient, a record returned by [findDeltaSPL] belongs to
    the recipient: the entry's owner, or the address of its account key,
    is the recipient. *)
Theorem findDeltaSPL_recipient_sound
    (meta : GetTransactionMeta) (message : TransactionMessage) (rcpt : string)
    (r : SplDelta) :
  rcpt <> "" ->
  findDeltaSPL meta message (Some rcpt) = Some r ->
  spl_owner r = Some rcpt \/ pubkey_at message (spl_accountIndex r) = Some rcpt.
Proof.
  intros Hne%truthy_Some Hr. unfold findDeltaSPL in Hr.
  apply findDeltaSPL_loop_recipient_sound in Hr as [[=] | (pb & _ & -> & Em)];
    [|assumption].
  simpl. unfold matches_recipient in Em.
  apply orb_true_iff in Em as [Em | Em]; apply bool_decide_eq_true in Em; auto.
Qed.

Lemma findDeltaSPL_recipient_sound_witness :
  Some "C" = Some "C" \/ pubkey_at sample_message 2 = Some "C".
Proof.
  apply (findDeltaSPL_recipient_sound sample_meta sample_message "C"
           {| spl_accountIndex := 2; spl_mint := "M"; spl_decimals := 6;
              delta := Fin (-400); spl_owner := Some "C" |}).
  - discriminate.
  - vm_compute. reflexivity.
Defined.

(** ** The reported token amount does not depend on the order of the entries *)

Lemma jgt_positive_antisym a b :
  jgt a jzero = true -> jgt b jzero = true ->
  jgt a b = false -> jgt b a = false -> a = b.
Proof.
  destruct a, b; simpl; try discriminate; try reflexivity.
  intros _ _ H1%bool_decide_eq_false H2%bool_decide_eq_false. f_equal. lia.
Qed.

Lemma best_of_same_delta preMap post1 post2 best1 best2 :
  (forall pb, pb ∈ post1 <-> pb ∈ post2) ->
  best_of preMap post1 best1 -> best_of preMap post2 best2 ->
  delta <$> best1 = delta <$> best2.
Proof.
  intros Hsame H1 H2. destruct best1 as [r1|], best2 as [r2|]; simpl in *.
  - destruct H1 as (Hp1 & i1 & pb1 & Hi1 & -> & Hmax1 & _).
    destruct H2 as (Hp2 & i2 & pb2 & Hi2 & -> & Hmax2 & _).
    simpl in *. f_equal. apply jgt_positive_antisym; try assumption.
    + apply Hmax2, Hsame. eapply list_elem_of_lookup_2; eauto.
    + apply Hmax1, Hsame. eapply list_elem_of_lookup_2; eauto.
  - destruct H1 as (Hp1 & i1 & pb1 & Hi1 & -> & _). simpl in Hp1.
    rewrite H2 in Hp1; [discriminate|].
    apply Hsame. eapply list_elem_of_lookup_2; eauto.
  - destruct H2 as (Hp2 & i2 & pb2 & Hi2 & -> & _). simpl in Hp2.
    rewrite H1 in Hp2; [discriminate|].
    apply Hsame. eapply list_elem_of_lookup_2; eauto.
  - reflexivity.
Qed.

(** X8. Scanning without a recipient, the delta that [findDeltaSPL]
    reports (or the absence of a result) is the same for two transactions
    with the same pre balances whose post balances are a rearrangement of
    each other; only the entry chosen among equal deltas may differ. *)
Theorem findDeltaSPL_scan_order_independent
    (meta1 meta2 : GetTransactionMeta) (message : TransactionMessage)
    (rcpt : option string) :
  truthy rcpt = false ->
  preTokenBalances meta1 = preTokenBalances meta2 ->
  default [] (postTokenBalances meta1) ≡ₚ default [] (postTokenBalances meta2) ->
  delta <$> findDeltaSPL meta1 message rcpt = delta <$> findDeltaSPL meta2 message rcpt.
Proof.
  intros Ht Hpre Hperm. unfold findDeltaSPL. rewrite <- Hpre.
  set (preMap := mkPreMap (default [] (preTokenBalances meta1))).
  apply (best_of_same_delta preMap (default [] (postTokenBalances meta1))
           (default [] (postTokenBalances meta2))).
  - intros pb. now rewrite Hperm.
  - apply (findDeltaSPL_loop_best preMap message rcpt _ [] None Ht).
    intros pb Hin. now apply elem_of_nil in Hin.
  - apply (findDeltaSPL_loop_best preMap message rcpt _ [] None Ht).
    intros pb Hin. now apply elem_of_nil in Hin.
Qed.

Lemma findDeltaSPL_scan_order_independent_witness :
  delta <$> findDeltaSPL sample_meta sample_message None
  = delta <$> findDeltaSPL
      {| fee := Fin 5000; preBalances := []; postBalances := [];
         preTokenBalances := Some [token 2 "M" (Some "C") "500"];
         postTokenBalances :=
           Some [token 2 "N" (Some "C") "9"; token 1 "M" (Some "B") "7";
                 token 2 "M" (Some "C") "100"] |}
      sample_message None.
Proof.
  apply findDeltaSPL_scan_order_independent; [reflexivity | reflexivity |].
  symmetry.
  apply (Permutation_cons_append
           [token 1 "M" (Some "B") "7"; token 2 "M" (Some "C") "100"]
           (token 2 "N" (Some "C") "9")).
Defined.

(** ** More on [parseSignature] and [buildExplorerUrl] *)

Lemma chars_app a b : chars (a +:+ b) = chars a ++ chars b.
Proof.
  unfold chars. induction a as [|c a IH]; [reflexivity|].
  unfold String.app in *. simpl. now rewrite IH.
Qed.

Lemma trim_start_spaces w l :
  Forall (fun c => is_js_space c = true) w -> trim_start (w ++ l) = trim_start l.
Proof.
  induction 1 as [|c w Hc _ IH]; [reflexivity|]. simpl. now rewrite Hc.
Qed.

Lemma trim_start_head l c :
  head l = Some c -> is_js_space c = false -> trim_start l = l.
Proof. destruct l as [|a l]; [discriminate|]. intros [= ->] Hc. simpl. now rewrite Hc. Qed.

Lemma trim_end_spaces l w :
  Forall (fun c => is_js_space c = true) w -> trim_end (l ++ w) = trim_end l.
Proof.
  intros Hw. unfold trim_end. rewrite reverse_app.
  rewrite trim_start_spaces; [reflexivity|]. now apply Forall_reverse.
Qed.

Lemma trim_end_last l c :
  last l = Some c -> is_js_space c = false -> trim_end l = l.
Proof.
  intros Hl Hc. unfold trim_end.
  rewrite (trim_start_head (reverse l) c); [apply reverse_involutive | | assumption].
  now rewrite head_reverse.
Qed.

Lemma trim_end_nil : trim_end [] = [].
Proof. reflexivity. Qed.

Lemma trim_surrounded w1 l w2 :
  Forall (fun c => is_js_space c = true) w1 ->
  Forall (fun c => is_js_space c = true) w2 ->
  trim (w1 ++ l ++ w2) = trim l.
Proof.
  intros H1 H2. unfold trim. rewrite trim_start_spaces by assumption.
  induction l as [|c l IH].
  - simpl. rewrite <- (app_nil_r w2), trim_start_spaces by assumption. reflexivity.
  - simpl. destruct (is_js_space c) eqn:Ec; [assumption|].
    now apply (trim_end_spaces (c :: l)).
Qed.

Lemma match_group_all g : signature_text g -> match_group g = Some g.
Proof.
  intros [Hall [Hlo Hhi]]. unfold match_group.
  rewrite (class_run_all 88 g Hall Hhi). now rewrite bool_decide_eq_true_2.
Qed.

Lemma class_run_take n : forall l,
  Forall (fun c => is_base58 c = true) l -> class_run n l = take n l.
Proof.
  induction n as [|n IH]; intros [|c l] Hall; simpl; try reflexivity.
  inversion Hall as [|? ? Hc Hrest]; subst. rewrite Hc. f_equal. now apply IH.
Qed.

Lemma match_shapes_base58 l :
  Forall (fun c => is_base58 c = true) l -> match_shapes url_shapes l = None.
Proof.
  intros Hall. destruct (match_shapes url_shapes l) as [g|] eqn:E; [|reflexivity].
  exfalso. apply match_shapes_sound in E as (shape & after & Hin & Hs & _).
  apply (url_shapes_not_base58 shape Hin).
  rewrite Hs in Hall. now apply Forall_app in Hall as [? _].
Qed.

Lemma regex_search_skip at_start c l :
  match_at at_start (c :: l) = None ->
  regex_search at_start (c :: l) = regex_search false l.
Proof. intros H. simpl. now rewrite H. Qed.

Lemma regex_search_hit at_start l g :
  match_at at_start l = Some g -> regex_search at_start l = Some g.
Proof. intros H. destruct l; simpl; now rewrite H. Qed.

Lemma signature_text_ends g :
  signature_text g ->
  exists c, last g = Some c /\ is_js_space c = false.
Proof.
  intros [Hall [Hlo _]]. destruct (last g) as [c|] eqn:El.
  - exists c. split; [reflexivity|]. apply base58_not_space.
    apply last_Some_elem_of in El.
    now apply (proj1 (Forall_forall _ g) Hall).
  - apply last_None in El. subst g. simpl in Hlo. lia.
Qed.

Lemma regex_search_solscan g :
  signature_text g ->
  regex_search true (chars "https://solscan.io/tx/" ++ g) = Some g.
Proof.
  intros Hg%match_group_all.
  change (chars "https://solscan.io/tx/" ++ g)
    with (chars "https://" ++ chars "solscan.io/tx/" ++ g).
  change (chars "https://")
    with ["h"; "t"; "t"; "p"; "s"; ":"; "/"; "/"]%char.
  cbn [app].
  do 8 (rewrite regex_search_skip by (vm_compute; reflexivity)).
  apply regex_search_hit. unfold match_at, url_shapes, match_shapes.
  rewrite (proj2 (strip_prefix_Some (chars "solscan.io/tx/") _ g) eq_refl).
  simpl mbind. now rewrite Hg.
Qed.

Lemma parseSignature_explorer_url sig :
  signature_text (chars sig) -> parseSignature (buildExplorerUrl sig) = Some sig.
Proof.
  intros Hsig. unfold parseSignature, buildExplorerUrl. rewrite chars_app.
  destruct (signature_text_ends _ Hsig) as (c & Hlast & Hc).
  assert (Htrim : trim (chars "https://solscan.io/tx/" ++ chars sig)
                  = chars "https://solscan.io/tx/" ++ chars sig).
  { unfold trim. rewrite (trim_start_head _ "h"%char) by reflexivity.
    apply (trim_end_last _ c); [|assumption].
    rewrite last_app, Hlast. reflexivity. }
  rewrite Htrim, (regex_search_solscan _ Hsig). simpl.
  unfold chars. now rewrite string_of_list_ascii_of_string.
Qed.

Lemma parseSignature_Some_text input sig :
  parseSignature input = Some sig -> signature_text (chars sig).
Proof.
  intros H. apply parseSignature_Some in H as (_ & _ & _ & _ & _ & Hsig). exact Hsig.
Qed.

Lemma parseSignature_Some_nonempty input sig :
  parseSignature input = Some sig -> sig <> "".
Proof.
  intros H%parseSignature_Some_text ->. destruct H as [_ [Hlo _]]. simpl in Hlo. lia.
Qed.

(** X9. Round trip: the explorer link built for a signature parses back
    to that signature. *)
Theorem parseSignature_buildExplorerUrl (sig : string) :
  signature_text (chars sig) -> parseSignature (buildExplorerUrl sig) = Some sig.
Proof. apply parseSignature_explorer_url. Qed.

Lemma parseSignature_buildExplorerUrl_witness :
  parseSignature (buildExplorerUrl text87) = Some text87.
Proof.
  apply parseSignature_buildExplorerUrl.
  split; [apply forallb_base58; vm_compute; reflexivity | vm_compute; lia].
Defined.

(** X10. What [parseSignature] returns is a text of 87 or 88 base58
    characters, and parsing it again gives it back unchanged. *)
Theorem parseSignature_canonical (input sig : string) :
  parseSignature input = Some sig ->
  signature_text (chars sig) /\ parseSignature sig = Some sig.
Proof.
  intros H%parseSignature_Some_text. split; [assumption | now apply parseSignature_raw].
Qed.

Lemma parseSignature_canonical_witness :
  signature_text (chars text88) /\ parseSignature text88 = Some text88.
Proof.
  apply (parseSignature_canonical ("  https://solanafm.com/tx/" +:+ text88 +:+ "?x=1")).
  vm_compute. reflexivity.
Defined.

(** X11. A raw input of 87 or more base58 characters is accepted and cut to
    its first 88 characters: a text longer than a signature is not
    rejected. *)
Theorem parseSignature_raw_truncates (s : string) :
  Forall (fun c => is_base58 c = true) (chars s) ->
  (87 <= length (chars s))%nat ->
  parseSignature s = Some (string_of_list_ascii (take 88 (chars s))).
Proof.
  intros Hall Hlen. unfold parseSignature. rewrite (trim_base58 _ Hall).
  destruct (chars s) as [|c l] eqn:El; [simpl in Hlen; lia|]. rewrite <- El in *.
  assert (Hat : match_at true (chars s) = Some (take 88 (chars s))).
  { unfold match_at. rewrite (match_shapes_base58 _ Hall). unfold match_group.
    rewrite (class_run_take 88 _ Hall).
    rewrite bool_decide_eq_true_2; [reflexivity|]. rewrite length_take. lia. }
  now rewrite (regex_search_hit _ _ _ Hat).
Qed.

Lemma parseSignature_raw_truncates_witness :
  parseSignature (text88 +:+ text84) = Some text88.
Proof.
  rewrite (parseSignature_raw_truncates (text88 +:+ text84)).
  - vm_compute. reflexivity.
  - apply forallb_base58. vm_compute. reflexivity.
  - vm_compute. lia.
Defined.

(** X12. White space around the input is ignored, and an input of white
    space only yields no signature. *)
Theorem parseSignature_ignores_outer_space (w1 s w2 : string) :
  Forall (fun c => is_js_space c = true) (chars w1) ->
  Forall (fun c => is_js_space c = true) (chars w2) ->
  parseSignature (w1 +:+ s +:+ w2) = parseSignature s
  /\ parseSignature (w1 +:+ w2) = None.
Proof.
  intros H1 H2. unfold parseSignature. rewrite !chars_app. split.
  - now rewrite (trim_surrounded _ _ _ H1 H2).
  - rewrite <- (app_nil_l (chars w2)), (trim_surrounded (chars w1) [] (chars w2) H1 H2).
    reflexivity.
Qed.

Lemma parseSignature_ignores_outer_space_witness :
  parseSignature ("  " +:+ text88 +:+ " ") = parseSignature text88
  /\ parseSignature ("  " +:+ " ") = None.
Proof.
  apply parseSignature_ignores_outer_space;
    repeat constructor.
Defined.

(** ** Classification and report assembly *)

Lemma buildReport_cases spl sol message rcpt :
  (exists s, spl = Some s /\ jgt (delta s) jzero = true /\
     buildReport spl sol message rcpt
     = ReportSpl (spl_mint s) (delta s) (spl_decimals s)
         {| numerator := delta s; divisor := Pow10 (spl_decimals s) |}
         (or_else (or_else (Some rcpt) (spl_owner s))
                  (pubkey_at message (spl_accountIndex s))))
  \/ ((spl = None \/ exists s, spl = Some s /\ jgt (delta s) jzero = false) /\
      jgt (deltaLamports sol) jzero = true /\
      buildReport spl sol message rcpt
      = ReportSol (deltaLamports sol)
          {| numerator := deltaLamports sol; divisor := LAMPORTS_PER_SOL |}
          (or_else (Some rcpt) (pubkey_at message (index sol))))
  \/ ((spl = None \/ exists s, spl = Some s /\ jgt (delta s) jzero = false) /\
      jgt (deltaLamports sol) jzero = false /\
      buildReport spl sol message rcpt
      = ReportNone (sender (inferParties message)) (recipient (inferParties message))).
Proof.
  unfold buildReport. destruct spl as [s|].
  - destruct (jgt (delta s) jzero) eqn:Es.
    + left. exists s. auto.
    + right. destruct (jgt (deltaLamports sol) jzero) eqn:En; [left | right];
        (split; [right; exists s; auto | auto]).
  - right. destruct (jgt (deltaLamports sol) jzero) eqn:En; [left | right]; auto.
Qed.

(** X13. An asset is reported only for a strictly positive movement: the
    amount of a token asset is a strictly positive delta over the power of
    ten of the reported decimals, the amount of a native asset a strictly
    positive number of lamports over [LAMPORTS_PER_SOL]. *)
Theorem analyse_asset_positive
    (sig : string) (res : GetTransactionResponse) (meta : GetTransactionMeta)
    (rcpt : string) :
  match an_asset (analyse sig res meta rcpt) with
  | AssetSPL _ amount decimals =>
      jgt (numerator amount) jzero = true /\ divisor amount = Pow10 decimals
  | AssetSOL amount =>
      jgt (numerator amount) jzero = true /\ divisor amount = LAMPORTS_PER_SOL
  | AssetUnknown => True
  end.
Proof.
  unfold analyse. simpl.
  destruct (buildReport_cases
              (findDeltaSPL meta (message res)
                 (if bool_decide (rcpt = "") then None else Some rcpt))
              (findDeltaSOL meta (message res)
                 (if bool_decide (rcpt = "") then None else Some rcpt))
              (message res) rcpt)
    as [(s & _ & Hpos & ->) | [(_ & Hpos & ->) | (_ & _ & ->)]]; simpl; auto.
Qed.

(** X14. When a recipient is typed in and an asset is classified, the
    reported recipient is the typed one. *)
Theorem analyse_recipient_as_typed
    (sig : string) (res : GetTransactionResponse) (meta : GetTransactionMeta)
    (rcpt : string) :
  rcpt <> "" ->
  an_asset (analyse sig res meta rcpt) <> AssetUnknown ->
  an_recipient (analyse sig res meta rcpt) = Some rcpt.
Proof.
  intros Hne%truthy_Some. unfold analyse. simpl.
  destruct (buildReport_cases
              (findDeltaSPL meta (message res)
                 (if bool_decide (rcpt = "") then None else Some rcpt))
              (findDeltaSOL meta (message res)
                 (if bool_decide (rcpt = "") then None else Some rcpt))
              (message res) rcpt)
    as [(s & _ & _ & ->) | [(_ & _ & ->) | (_ & _ & ->)]]; simpl.
  - intros _. unfold or_else. rewrite Hne. now rewrite Hne.
  - intros _. unfold or_else. now rewrite Hne.
  - congruence.
Qed.

Lemma analyse_recipient_as_typed_witness :
  an_recipient (analyse "sig" sample_response sample_meta "B") = Some "B".
Proof.
  apply analyse_recipient_as_typed; [discriminate | vm_compute; discriminate].
Defined.

(** X15. With a recipient, the first post entry that matches it decides
    the token path: when its delta is not strictly positive the asset is
    not classified as a token, whatever the later entries of the same
    recipient hold. *)
Theorem analyse_first_match_decides
    (sig : string) (res : GetTransactionResponse) (meta : GetTransactionMeta)
    (rcpt : string) (before : list TokenBalance) (pb : TokenBalance)
    (after : list TokenBalance) :
  rcpt <> "" ->
  default [] (postTokenBalances meta) = before ++ pb :: after ->
  (forall x, x ∈ before ->
     owner x <> Some rcpt /\ pubkey_at (message res) (accountIndex x) <> Some rcpt) ->
  owner pb = Some rcpt \/ pubkey_at (message res) (accountIndex pb) = Some rcpt ->
  jgt (entryDelta (mkPreMap (default [] (preTokenBalances meta))) pb) jzero = false ->
  forall mint amount decimals,
    an_asset (analyse sig res meta rcpt) <> AssetSPL mint amount decimals.
Proof.
  intros Hne Hpost Hbefore Hpb Hdelta mint' amount' decimals'.
  unfold analyse. simpl. rewrite bool_decide_eq_false_2 by assumption.
  assert (Hspl : findDeltaSPL meta (message res) (Some rcpt)
                 = Some (entryRecord (mkPreMap (default [] (preTokenBalances meta))) pb)).
  { unfold findDeltaSPL. rewrite Hpost. apply findDeltaSPL_loop_first_match.
    - now apply truthy_Some.
    - intros x Hx. destruct (Hbefore x Hx). now apply matches_recipient_false.
    - now apply matches_recipient_true. }
  rewrite Hspl.
  destruct (buildReport_cases
              (Some (entryRecord (mkPreMap (default [] (preTokenBalances meta))) pb))
              (findDeltaSOL meta (message res) (Some rcpt)) (message res) rcpt)
    as [(s & [= <-] & Hpos & _) | [(_ & _ & ->) | (_ & _ & ->)]]; simpl.
  - simpl in Hpos. congruence.
  - discriminate.
  - discriminate.
Qed.

Lemma analyse_first_match_decides_witness :
  jgt (entryDelta (mkPreMap [token 2 "M" (Some "C") "500"]) (token 2 "N" (Some "C") "9"))
      jzero = true
  /\ forall mint amount decimals,
       an_asset (analyse "sig" sample_response sample_meta "C")
       <> AssetSPL mint amount decimals.
Proof.
  split; [vm_compute; reflexivity|].
  apply (analyse_first_match_decides "sig" sample_response sample_meta "C"
           [token 1 "M" (Some "B") "7"] (token 2 "M" (Some "C") "100")
           [token 2 "N" (Some "C") "9"]).
  - discriminate.
  - reflexivity.
  - intros x Hx. apply list_elem_of_singleton in Hx. subst x.
    split; vm_compute; discriminate.
  - left. reflexivity.
  - vm_compute. reflexivity.
Defined.

(** ** The state [handleFetch] leaves *)

(** X16. After [handleFetch] an error is set exactly when there is no
    analysis, and an analysis is only present together with the
    transaction; error, transaction and analysis of the previous fetch
    play no part in the new state. *)
Theorem handleFetch_replaces_outcome
    (t : Locale) (rpc : string -> RpcOutcome) (input rcpt : string) (st : AppState) :
  let st' := handleFetch t rpc input rcpt st in
  (is_Some (st_error st') <-> st_analysis st' = None)
  /\ (is_Some (st_analysis st') -> is_Some (st_tx st'))
  /\ (forall st2, st_loading st2 = st_loading st -> st_calls st2 = st_calls st ->
        handleFetch t rpc input rcpt st2 = st').
Proof.
  assert (Hex : forall (A B : Type) (a : option A) (b : option B),
            (is_Some a /\ b = None) \/ (a = None /\ is_Some b) ->
            is_Some a <-> b = None).
  { intros A B a b [[Ha ->] | [-> [y ->]]]; split; auto;
      try (now intros [? [=]]); discriminate. }
  simpl. unfold handleFetch. split; [|split].
  - refine (Hex _ _ _ _ _). case_bool_decide; simpl; [left; eauto|].
    destruct (rpc _) as [msg|[res|]]; simpl; try solve [left; eauto].
    destruct (meta res); simpl; [|left; eauto].
    destruct (time_text res); simpl; [right | left]; eauto.
  - case_bool_decide; simpl; [now intros [? [=]]|].
    destruct (rpc _) as [msg|[res|]]; simpl; try (now intros [? [=]]).
    destruct (meta res); simpl; [|now intros [? [=]]].
    destruct (time_text res); simpl; eauto.
  - intros st2 Hl Hc. now rewrite Hl, Hc.
Qed.

(** X17. When a signature is recognised in the input, [handleFetch] sends
    exactly that signature to the RPC node, once, and ends with the
    loading flag cleared, whatever the node answers. *)
Theorem handleFetch_single_call
    (t : Locale) (rpc : string -> RpcOutcome) (input rcpt sig : string) (st : AppState) :
  parseSignature input = Some sig ->
  st_calls (handleFetch t rpc input rcpt st) = sig :: st_calls st
  /\ st_loading (handleFetch t rpc input rcpt st) = false.
Proof.
  intros Hsig. pose proof (parseSignature_Some_nonempty _ _ Hsig) as Hne.
  unfold handleFetch. rewrite Hsig. simpl.
  rewrite bool_decide_eq_false_2 by assumption.
  destruct (rpc sig) as [msg|[res|]]; simpl; auto.
  destruct (meta res); simpl; auto.
  destruct (time_text res); simpl; auto.
Qed.

Lemma handleFetch_single_call_witness :
  st_calls (handleFetch sample_locale (fun _ => RpcThrows "Failed to fetch")
              text88 "" idle) = [text88]
  /\ st_loading (handleFetch sample_locale (fun _ => RpcThrows "Failed to fetch")
                   text88 "" idle) = false.
Proof.
  apply handleFetch_single_call. vm_compute. reflexivity.
Defined.

(** X18. The errors of a fetch with a recognised signature: a thrown
    error shows its message, or the locale's RPC error text when the
    message is empty; a [null] result shows the not-found text and a
    result without metadata the no-metadata text (the locale texts being
    non-empty); in each case neither transaction nor analysis is kept. *)
Theorem handleFetch_errors
    (t : Locale) (rpc : string -> RpcOutcome) (input rcpt sig : string) (st : AppState) :
  parseSignature input = Some sig ->
  noTxOrRPC t <> "" -> noMetadata t <> "" ->
  let st' := handleFetch t rpc input rcpt st in
  (forall msg, rpc sig = RpcThrows msg ->
     st_error st' = Some (if bool_decide (msg = "") then rpcError t else msg)
     /\ st_tx st' = None /\ st_analysis st' = None)
  /\ (rpc sig = RpcReturns None ->
      st_error st' = Some (noTxOrRPC t) /\ st_tx st' = None /\ st_analysis st' = None)
  /\ (forall res, rpc sig = RpcReturns (Some res) -> meta res = None ->
      st_error st' = Some (noMetadata t) /\ st_tx st' = None /\ st_analysis st' = None).
Proof.
  intros Hsig Hnf Hnm. pose proof (parseSignature_Some_nonempty _ _ Hsig) as Hne.
  simpl. unfold handleFetch. rewrite Hsig. simpl.
  rewrite bool_decide_eq_false_2 by assumption.
  split; [|split].
  - intros msg ->. simpl. auto.
  - intros ->. simpl. unfold caught. now rewrite bool_decide_eq_false_2.
  - intros res -> ->. simpl. unfold caught. now rewrite bool_decide_eq_false_2.
Qed.

Lemma handleFetch_errors_witness :
  st_error (handleFetch sample_locale (fun _ => RpcReturns None) text88 "" idle)
  = Some (noTxOrRPC sample_locale).
Proof.
  apply (proj1 (proj2 (handleFetch_errors sample_locale (fun _ => RpcReturns None)
                         text88 "" text88 idle ltac:(vm_compute; reflexivity)
                         ltac:(discriminate) ltac:(discriminate)))).
  reflexivity.
Defined.

Lemma time_text_in_range res z :
  blockTime res = Some (Fin z) -> Z.abs (z * 1000) <= 8640000000000000 ->
  time_text res = Some (if bool_decide (z = 0) then TimeDash else TimePLN (Fin z)).
Proof.
  intros Hb Hz. unfold time_text, toPLNDate. rewrite Hb. simpl.
  case_bool_decide; simpl; [reflexivity|].
  rewrite to_double_exact by (unfold two53; lia). simpl.
  now rewrite bool_decide_eq_true_2.
Qed.

Lemma round53_large a : two53 <= a -> two53 <= round53 a.
Proof.
  intros Ha. unfold round53. destruct (Z.ltb_spec a two53); [lia|].
  assert (Hlog : 53 <= Z.log2 a).
  { change 53 with (Z.log2 two53). apply Z.log2_le_mono. assumption. }
  set (e := Z.log2 a - 52). assert (He : 1 <= e) by (unfold e; lia).
  assert (Hpow : 2 ^ 52 * 2 ^ e <= a).
  { rewrite <- Z.pow_add_r by lia. replace (52 + e) with (Z.log2 a) by (unfold e; lia).
    apply Z.log2_spec. unfold two53 in Ha. lia. }
  assert (He2 : 2 <= 2 ^ e).
  { change 2 with (2 ^ 1) at 1. apply Z.pow_le_mono_r; lia. }
  assert (Hq : 2 ^ 52 <= Z.shiftr a e).
  { rewrite Z.shiftr_div_pow2 by lia. apply Z.div_le_lower_bound; lia. }
  rewrite Z.shiftl_mul_pow2 by lia. unfold two53.
  assert (H53 : 2 ^ 53 = 2 ^ 52 * 2) by reflexivity.
  destruct (_ <? _); [nia|]. destruct (_ <? _); [nia|]. destruct (Z.even _); nia.
Qed.

Lemma to_double_out_of_range w :
  8640000000000000 < Z.abs w -> valid_time_value (to_double w) = false.
Proof.
  intros Hw. destruct (Z.le_gt_cases (Z.abs w) two53) as [Hs|Hl].
  - rewrite to_double_exact by assumption. simpl. apply bool_decide_eq_false. lia.
  - unfold to_double. pose proof (round53_large (Z.abs w)) as Hr.
    destruct (_ <=? _); [now destruct (w <? 0)|].
    simpl. apply bool_decide_eq_false. unfold two53 in *.
    assert (H53 : 8640000000000000 < 2 ^ 53) by reflexivity.
    destruct w; simpl in *; lia.
Qed.

Lemma time_text_out_of_range res z :
  blockTime res = Some (Fin z) -> 8640000000000000 < Z.abs (z * 1000) ->
  time_text res = None.
Proof.
  intros Hb Hz. unfold time_text, toPLNDate. rewrite Hb. simpl.
  rewrite bool_decide_eq_false_2 by (intros ->; simpl in Hz; lia). simpl.
  now rewrite to_double_out_of_range.
Qed.

(** X19. A fetch that returns a transaction with metadata whose block time
    is missing or gives a valid date clears the error, keeps the
    transaction and produces an analysis that carries the parsed
    signature, the fee of the metadata, the time text, and an explorer
    link that parses back to the signature. *)
Theorem handleFetch_success
    (t : Locale) (rpc : string -> RpcOutcome) (input rcpt sig : string) (st : AppState)
    (res : GetTransactionResponse) (m : GetTransactionMeta) (tt : TimeText) :
  parseSignature input = Some sig ->
  rpc sig = RpcReturns (Some res) ->
  meta res = Some m ->
  time_text res = Some tt ->
  let st' := handleFetch t rpc input rcpt st in
  st_error st' = None /\ st_tx st' = Some res /\
  exists a, st_analysis st' = Some a /\
    an_signature a = sig /\ an_feeLamports a = fee m /\ an_time a = tt /\
    parseSignature (an_explorerUrl a) = Some sig.
Proof.
  intros Hsig Hrpc Hmeta Htime. pose proof (parseSignature_Some_nonempty _ _ Hsig) as Hne.
  simpl. unfold handleFetch. rewrite Hsig. simpl.
  rewrite bool_decide_eq_false_2 by assumption. rewrite Hrpc, Hmeta, Htime. simpl.
  split; [reflexivity|]. split; [reflexivity|].
  eexists. split; [reflexivity|]. simpl. split; [reflexivity|]. split; [reflexivity|].
  split.
  - unfold time_text, toPLNDate in Htime.
    destruct (blockTime res) as [ts|]; [|congruence].
    destruct (truthy_num ts); [|congruence].
    destruct (valid_time_value _); congruence.
  - apply parseSignature_explorer_url. now apply (parseSignature_Some_text input).
Qed.

Lemma handleFetch_success_witness :
  exists a,
    st_analysis (handleFetch sample_locale (fun _ => RpcReturns (Some sample_response))
                   ("https://solscan.io/tx/" +:+ text88) "" idle) = Some a
    /\ an_signature a = text88 /\ an_time a = TimePLN (Fin 1700000000).
Proof.
  destruct (handleFetch_success sample_locale (fun _ => RpcReturns (Some sample_response))
              ("https://solscan.io/tx/" +:+ text88) "" text88 idle
              sample_response sample_meta (TimePLN (Fin 1700000000)))
    as (_ & _ & a & Ha & Hs & _ & Ht & _);
    [vm_compute; reflexivity | reflexivity | reflexivity | vm_compute; reflexivity |].
  exists a. auto.
Defined.

(** X25. When the block time of the fetched transaction is beyond the
    range of dates (more than 8.64e15 milliseconds from the epoch once
    multiplied by 1000), formatting it throws after the transaction has
    been stored: [handleFetch] ends with the transaction kept, no
    analysis, an error set and the loading flag cleared. *)
Theorem handleFetch_block_time_out_of_range
    (t : Locale) (rpc : string -> RpcOutcome) (input rcpt sig : string) (st : AppState)
    (res : GetTransactionResponse) (m : GetTransactionMeta) (z : Z) :
  parseSignature input = Some sig ->
  rpc sig = RpcReturns (Some res) ->
  meta res = Some m ->
  blockTime res = Some (Fin z) ->
  8640000000000000 < Z.abs (z * 1000) ->
  let st' := handleFetch t rpc input rcpt st in
  st_tx st' = Some res /\ st_analysis st' = None /\ is_Some (st_error st')
  /\ st_loading st' = false.
Proof.
  intros Hsig Hrpc Hmeta Hb Hz. pose proof (parseSignature_Some_nonempty _ _ Hsig) as Hne.
  simpl. unfold handleFetch. rewrite Hsig. simpl.
  rewrite bool_decide_eq_false_2 by assumption.
  rewrite Hrpc, Hmeta, (time_text_out_of_range res z Hb Hz). simpl.
  repeat split; eauto.
Qed.

Lemma handleFetch_block_time_out_of_range_witness :
  st_tx (handleFetch sample_locale (fun _ => RpcReturns (Some far_future_response))
           text88 "" idle) = Some far_future_response
  /\ st_analysis (handleFetch sample_locale (fun _ => RpcReturns (Some far_future_response))
                    text88 "" idle) = None.
Proof.
  destruct (handleFetch_block_time_out_of_range sample_locale
              (fun _ => RpcReturns (Some far_future_response)) text88 "" text88 idle
              far_future_response sample_meta 8640000000001)
    as (Htx & Han & _);
    [vm_compute; reflexivity | reflexivity | reflexivity | reflexivity | vm_compute; reflexivity |].
  split; assumption.
Defined.

(** ** More on [inferParties] *)

Lemma find_writable_ignores_signer keys1 : forall keys2 i,
  (fun k => (pubkey k, writable k)) <$> keys1 = (fun k => (pubkey k, writable k)) <$> keys2 ->
  pubkey <$> find_writable_after_first keys1 i = pubkey <$> find_writable_after_first keys2 i.
Proof.
  induction keys1 as [|k1 keys1 IH]; intros [|k2 keys2] i Heq; simpl in *;
    try reflexivity; try discriminate.
  injection Heq as Hp Hw Hrest. rewrite Hw.
  destruct (bool_decide (0 < i)%nat && writable k2); simpl; [now f_equal|].
  now apply IH.
Qed.

(** X20. The guess of [inferParties] depends on the addresses and the
    writable flags only: the signer flags are never read, so a writable
    signer after the first account is guessed as recipient like any other
    writable account. *)
Theorem inferParties_ignores_signer (m1 m2 : TransactionMessage) :
  (fun k => (pubkey k, writable k)) <$> accountKeys m1
  = (fun k => (pubkey k, writable k)) <$> accountKeys m2 ->
  inferParties m1 = inferParties m2.
Proof.
  intros Heq. unfold inferParties. f_equal.
  - destruct (accountKeys m1) as [|k1 l1], (accountKeys m2) as [|k2 l2];
      simpl in *; try reflexivity; try discriminate.
    injection Heq as Hp _ _. now rewrite Hp.
  - now apply find_writable_ignores_signer.
Qed.

Lemma inferParties_ignores_signer_witness :
  inferParties {| accountKeys := [account "A" true true; account "B" true true];
                  instructions := None |}
  = inferParties {| accountKeys := [account "A" false true; account "B" false true];
                    instructions := Some [] |}.
Proof. apply inferParties_ignores_signer. reflexivity. Defined.

(** X21. With a single account key no recipient is guessed, even when that
    account is writable; with no account key there is no sender either. *)
Theorem inferParties_short_key_list (message : TransactionMessage) :
  (length (accountKeys message) <= 1)%nat ->
  recipient (inferParties message) = None
  /\ (accountKeys message = [] -> sender (inferParties message) = None).
Proof.
  intros Hlen. unfold inferParties.
  destruct (accountKeys message) as [|k [|k' l]]; simpl in *; try lia.
  - auto.
  - split; [reflexivity | discriminate].
Qed.

Lemma inferParties_short_key_list_witness :
  recipient (inferParties {| accountKeys := [account "A" true true];
                             instructions := Some [] |}) = None.
Proof.
  apply (inferParties_short_key_list
           {| accountKeys := [account "A" true true]; instructions := Some [] |}).
  simpl. lia.
Defined.

(** ** [short] *)

Lemma js_slice_head l n : 0 <= n -> js_slice l 0 (Some n) = take (Z.to_nat n) l.
Proof.
  intros Hn. unfold js_slice.
  destruct (Z.ltb_spec 0 0); [lia|]. destruct (Z.ltb_spec n 0); [lia|].
  replace (Z.to_nat (Z.min 0 (Z.of_nat (length l)))) with 0%nat by lia.
  rewrite drop_0.
  destruct (Z.le_ge_cases n (Z.of_nat (length l))).
  - f_equal. lia.
  - rewrite !take_ge by lia. reflexivity.
Qed.

Lemma js_slice_tail l n :
  0 < n -> js_slice l (- n) None = drop (length l - Z.to_nat n) l.
Proof.
  intros Hn. unfold js_slice.
  destruct (Z.ltb_spec (- n) 0); [|lia].
  replace (Z.to_nat (Z.max (Z.of_nat (length l) + - n) 0))
    with (length l - Z.to_nat n)%nat by lia.
  apply take_ge. rewrite length_drop. lia.
Qed.

Lemma js_slice_all l : js_slice l (- 0) None = l.
Proof.
  unfold js_slice. change (- 0) with 0.
  destruct (Z.ltb_spec 0 0); [lia|].
  replace (Z.to_nat (Z.min 0 (Z.of_nat (length l)))) with 0%nat by lia.
  rewrite drop_0. apply take_ge. lia.
Qed.

(** X22. For a non-empty address and a positive [len], [short] keeps the
    first [4 + len] and the last [len] characters around the separator;
    an address of at most [4 + len] characters is shown whole before the
    separator, so nothing of it is hidden. *)
Theorem short_keeps_ends (ellipsis : list ascii) (a : string) (len : Z) :
  a <> "" -> 0 < len ->
  short ellipsis (Some a) (Some len)
  = take (Z.to_nat (4 + len)) (chars a) ++ ellipsis
    ++ drop (length (chars a) - Z.to_nat len) (chars a)
  /\ ((length (chars a) <= Z.to_nat (4 + len))%nat ->
      short ellipsis (Some a) (Some len)
      = chars a ++ ellipsis ++ drop (length (chars a) - Z.to_nat len) (chars a)).
Proof.
  intros Ha%truthy_Some Hlen. unfold short. rewrite Ha.
  change (default 4 (Some len)) with len. change (default "" (Some a)) with a.
  rewrite js_slice_head, js_slice_tail by lia. split; [reflexivity|].
  intros Hshort. now rewrite take_ge.
Qed.

Lemma short_keeps_ends_witness :
  short (chars "~") (Some "So11111111111111111111111111111111111111112") (Some 6)
  = chars "So11111111~111112".
Proof.
  rewrite (proj1 (short_keeps_ends (chars "~")
                    "So11111111111111111111111111111111111111112" 6
                    ltac:(discriminate) ltac:(lia))).
  reflexivity.
Defined.

(** X23. [short] shows a dash for a missing or empty address; called
    without [len] it uses 4; and with [len = 0] the part after the
    separator is the whole address, since [slice(-0)] starts at 0. *)
Theorem short_edge_cases (ellipsis : list ascii) :
  (forall len, short ellipsis None len = chars "-")
  /\ (forall len, short ellipsis (Some "") len = chars "-")
  /\ (forall addr, short ellipsis addr None = short ellipsis addr (Some 4))
  /\ (forall a, a <> "" ->
        short ellipsis (Some a) (Some 0) = take 4 (chars a) ++ ellipsis ++ chars a).
Proof.
  split; [reflexivity|]. split; [reflexivity|]. split; [reflexivity|].
  intros a Ha%truthy_Some. unfold short. rewrite Ha.
  change (default 4 (Some 0)) with 0. change (default "" (Some a)) with a.
  rewrite js_slice_head by lia. now rewrite js_slice_all.
Qed.

Lemma short_edge_cases_witness :
  short (chars "~") (Some "So111112") (Some 0) = chars "So11~So111112".
Proof.
  rewrite (proj2 (proj2 (proj2 (short_edge_cases (chars "~")))) "So111112"
             ltac:(discriminate)).
  reflexivity.
Defined.

(** ** The recipient of a native receipt *)

(** X24. Without a typed recipient, when the asset is classified as native
    and every balance index has an account key, the reported recipient is
    the address of the account whose delta is the reported amount, and no
    visited account has a greater delta. *)
Theorem analyse_native_recipient
    (sig : string) (res : GetTransactionResponse) (meta : GetTransactionMeta)
    (amount : Quotient) :
  (length (preBalances meta) <= length (accountKeys (message res)))%nat ->
  an_asset (analyse sig res meta "") = AssetSOL amount ->
  exists (k : nat) (acc : AccountMetaKey),
    accountKeys (message res) !! k = Some acc /\
    an_recipient (analyse sig res meta "") = Some (pubkey acc) /\
    numerator amount = delta_at meta k /\
    forall j : nat, (j < length (preBalances meta))%nat ->
      jgt (delta_at meta j) (delta_at meta k) = false.
Proof.
  intros Hlen. unfold analyse. simpl.
  pose proof (findDeltaSOL_scan meta (message res) None eq_refl) as Hscan.
  simpl in Hscan.
  destruct (buildReport_cases (findDeltaSPL meta (message res) None)
              (findDeltaSOL meta (message res) None) (message res) "")
    as [(s & _ & _ & ->) | [(_ & Hpos & ->) | (_ & _ & ->)]]; simpl;
    try discriminate.
  intros [= <-]. simpl.
  destruct (findDeltaSOL meta (message res) None) as [ri rd]. simpl in *.
  destruct Hscan as [(_ & -> & _) | (k & -> & Hk & -> & _ & Hmax & _)];
    [rewrite jgt_irrefl in Hpos; discriminate|].
  destruct (lookup_lt_is_Some_2 (accountKeys (message res)) k) as [acc Hacc]; [lia|].
  exists k, acc. split; [assumption|]. split; [|split; [reflexivity | assumption]].
  unfold or_else, pubkey_at. simpl.
  rewrite bool_decide_eq_true_2 by lia. now rewrite Nat2Z.id, Hacc.
Qed.

Lemma analyse_native_recipient_witness :
  exists (k : nat) (acc : AccountMetaKey),
    accountKeys sample_message !! k = Some acc /\
    an_recipient (analyse "sig" sample_response still_native_meta "") = Some (pubkey acc).
Proof.
  destruct (analyse_native_recipient "sig" sample_response still_native_meta
              {| numerator := Fin 100; divisor := LAMPORTS_PER_SOL |})
    as (k & acc & Hacc & Hr & _); [simpl; lia | vm_compute; reflexivity |].
  exists k, acc. split; assumption.
Defined.
